(** * Diagnostics aggregation of the cpp2 front end (diagnostics.h)

    A shallow embedding of the final revision of [diagnostics.h]:
    [get_declaration_kind], [get_decl_name], [read_symbol],
    [make_scope_map], [sanitize_for_json], [get_diagnostics] and
    [print_diagnostics], followed by the properties of the natural-language
    specification that concern them.

    Conventions of the embedding.
    - A [token const*] is the text [to_string()] gives, and is optional
      where the source tests or could meet [nullptr].
    - Undefined behaviour of the C++ ([back()] and [pop_back()] on an empty
      vector, a dereferenced null identifier) is the outcome [None].
    - [std::unordered_map<std::string, _>] is a [gmap string _];
      [std::set<_>] is the strictly increasing list of its elements;
      [std::vector<std::string>] used as a stack keeps its [back()] first.
    - [lineno_t] and [colno_t] are integers, read as [Z]: the unit only
      copies, compares and prints them. *)

From Stdlib Require Import ZArith Ascii String List Sorted.
From stdpp Require Import base option list strings gmap pretty.

Open Scope Z_scope.
Set Warnings "-register-all,-clear-no-such-hyp".

(** ** The data of [sema.h] and [common.h] that the unit reads *)

(** [cpp2::source_position]: a line and a column. *)
Record source_position : Type := mk_pos {
  lineno : Z;
  colno : Z
}.

(** [cpp2::error_entry], with the members the unit reads. *)
Record error_entry : Type := mk_error {
  err_symbol : string;
  err_msg : string;
  err_where : source_position
}.

(** [cpp2::declaration_node]: the four classification queries, the
    identifier (null for an anonymous declaration), the parent declaration
    ([get_parent()], null at the top level) and [position()]. *)
Inductive declaration_node : Type := mk_declaration_node {
  is_function : bool;
  is_object : bool;
  is_type : bool;
  is_namespace : bool;
  decl_identifier : option string;
  get_parent : option declaration_node;
  position : source_position
}.

(** [cpp2::declaration_sym]: [declaration] is asserted non-null by the
    source, [identifier] may be null. *)
Record declaration_sym : Type := mk_declaration_sym {
  declaration : declaration_node;
  identifier : option string
}.

(** [cpp2::compound_statement_node]: the positions of its two braces. *)
Record compound_statement_node : Type := mk_compound_node {
  open_brace : source_position;
  close_brace : source_position
}.

(** The [kind_] of a [compound_sym]: the unit only asks whether it is
    [is_scope]. *)
Inductive compound_kind : Type := is_scope | is_other_kind.

(** [cpp2::compound_sym]. *)
Record compound_sym : Type := mk_compound_sym {
  start : bool;
  compound : compound_statement_node;
  kind_ : compound_kind
}.

(** The variant [symbol::sym] of one entry of [sema.symbols]; the
    alternatives that [make_scope_map] sends to [default:] are one
    constructor. *)
Inductive symbol : Type :=
  | declaration_active (sym : declaration_sym)
  | compound_active (sym : compound_sym)
  | other_active.

(** One value of [sema.declaration_of]: the unit reads [d.second.sym]. *)
Record declaration_of_entry : Type := mk_declaration_of {
  sym : declaration_sym
}.

(** [cpp2::sema], with the three members the unit reads;
    [declaration_of] is listed in the map's iteration order. *)
Record sema : Type := mk_sema {
  symbols : list symbol;
  declaration_of : list declaration_of_entry;
  errors : list error_entry
}.

(** ** The types of [diagnostics.h] *)

Record diagnostic_symbol_t : Type := mk_diagnostic_symbol {
  ds_symbol : string;
  ds_kind : string;
  ds_scope : string;
  ds_position : source_position
}.

Record diagnostic_scope_range_t : Type := mk_range {
  range_start : source_position;
  range_end : source_position
}.

Abbreviation diagnostic_scope_map := (gmap string diagnostic_scope_range_t).

Record diagnostics_t : Type := mk_diagnostics {
  diag_symbols : list diagnostic_symbol_t;
  diag_errors : list error_entry;
  scope_map : diagnostic_scope_map
}.

#[global] Instance source_position_eq_dec : EqDecision source_position.
Proof. solve_decision. Defined.

#[global] Instance diagnostic_scope_range_eq_dec :
  EqDecision diagnostic_scope_range_t.
Proof. solve_decision. Defined.

#[global] Instance diagnostic_symbol_eq_dec : EqDecision diagnostic_symbol_t.
Proof. solve_decision. Defined.

(** ** Helper functions *)

(** [get_declaration_kind] *)
Definition get_declaration_kind (decl : declaration_node) : string :=
  if is_function decl then "function"
  else if is_object decl then "var"
  else if is_type decl then "type"
  else if is_namespace decl then "namespace"
  else "unknown".

(** [get_decl_name]: the argument is a possibly null pointer. *)
Definition get_decl_name (decl : option declaration_node) : string :=
  match decl with
  | None => ""
  | Some d =>
      match decl_identifier d with
      | None => ""
      | Some tok => tok
      end
  end.

(** [read_symbol]: [sym->identifier] is dereferenced unchecked. *)
Definition read_symbol (s : declaration_sym) : option diagnostic_symbol_t :=
  match identifier s with
  | None => None
  | Some tok =>
      Some (mk_diagnostic_symbol
              tok
              (get_declaration_kind (declaration s))
              (get_decl_name (get_parent (declaration s)))
              (position (declaration s)))
  end.

(** ** The scope map *)

Section ScopeMap.

(** The value of a default-constructed [source_position]; its
    constructor lives in [common.h]. *)
Variable default_position : source_position.

(** A value-initialised [diagnostic_scope_range_t]. *)
Definition default_range : diagnostic_scope_range_t :=
  mk_range default_position default_position.

(** [result[name]] read as a value: [operator[]] inserts a
    value-initialised range when the key is absent. *)
Definition index_or_default (result : diagnostic_scope_map) (name : string)
  : diagnostic_scope_range_t :=
  from_option id default_range (result !! name).

(** The loop state: [result] and [current]. *)
Definition scope_state : Type := diagnostic_scope_map * list string.

(** One iteration of the loop of [make_scope_map]. *)
Definition scope_visit (st : scope_state) (s : symbol) : option scope_state :=
  let '(result, current) := st in
  match s with
  | declaration_active sym =>
      if is_function (declaration sym) || is_namespace (declaration sym) then
        match identifier sym with
        | None => Some (result, current)
        | Some tok => Some (result, tok :: current)
        end
      else Some (result, current)
  | compound_active sym =>
      match kind_ sym with
      | is_scope =>
          match current with
          | [] => None
          | name :: rest =>
              if start sym then
                let pos := open_brace (compound sym) in
                Some (<[name := mk_range pos pos]> result, current)
              else
                let r := index_or_default result name in
                Some (<[name := mk_range (range_start r)
                                         (close_brace (compound sym))]> result,
                      rest)
          end
      | is_other_kind => Some (result, current)
      end
  | other_active => Some (result, current)
  end.

(** The loop over [sema.symbols]. *)
Fixpoint scope_loop (st : scope_state) (l : list symbol) : option scope_state :=
  match l with
  | [] => Some st
  | s :: l' =>
      match scope_visit st s with
      | None => None
      | Some st' => scope_loop st' l'
      end
  end.

(** [make_scope_map] *)
Definition make_scope_map (sm : sema) : option diagnostic_scope_map :=
  fst <$> scope_loop (∅, []) (symbols sm).

End ScopeMap.

(** ** Three-way comparison and [std::set] *)

(** [operator<=>]: the comparison a type is ordered by. *)
Class Spaceship (A : Type) : Type := spaceship : A → A → comparison.

(** A defaulted [operator<=>] compares the members in declaration order:
    the first member that differs decides. *)
Definition then_compare (c1 c2 : comparison) : comparison :=
  match c1 with
  | Eq => c2
  | _ => c1
  end.

#[global] Instance Z_spaceship : Spaceship Z := Z.compare.

(** [std::string] compares its characters as unsigned values, the first
    difference or the shorter length deciding. *)
#[global] Instance string_spaceship : Spaceship string := String.compare.

(** Members compared in declaration order are a tuple compared
    lexicographically. *)
#[global] Instance prod_spaceship {A B} `{Spaceship A, Spaceship B}
  : Spaceship (A * B) :=
  λ p q, then_compare (spaceship p.1 q.1) (spaceship p.2 q.2).

Definition position_key (p : source_position) : Z * Z := (lineno p, colno p).

(** Modelled from the spec: the comparison of [cpp2::source_position]
    (declared in [common.h]) orders positions lexicographically, line first,
    then column. *)
#[global] Instance source_position_spaceship : Spaceship source_position :=
  λ p q, spaceship (position_key p) (position_key q).

(** The members of [diagnostic_symbol_t] in declaration order: [symbol],
    [kind], [scope], [position]. *)
Definition symbol_key (d : diagnostic_symbol_t)
  : string * (string * (string * source_position)) :=
  (ds_symbol d, (ds_kind d, (ds_scope d, ds_position d))).

(** The defaulted [operator<=>] of [diagnostic_symbol_t]. *)
#[global] Instance diagnostic_symbol_spaceship : Spaceship diagnostic_symbol_t :=
  λ a b, spaceship (symbol_key a) (symbol_key b).

(** [a < b] and [a <= b] as [operator<=>] gives them. *)
Definition cmp_lt {A} `{Spaceship A} (a b : A) : Prop := spaceship a b = Lt.
Definition cmp_le {A} `{Spaceship A} (a b : A) : Prop := spaceship a b ≠ Gt.
Definition cmp_leb {A} `{Spaceship A} (a b : A) : bool :=
  match spaceship a b with
  | Gt => false
  | _ => true
  end.

(** What makes a three-way comparison a strict total order. *)
Class SpaceshipLaws (A : Type) `{Spaceship A} : Prop := {
  spaceship_eq (a b : A) : spaceship a b = Eq ↔ a = b;
  spaceship_antisym (a b : A) : spaceship b a = CompOpp (spaceship a b);
  spaceship_trans (a b c : A) :
    spaceship a b = Lt → spaceship b c = Lt → spaceship a c = Lt
}.

(** [std::set::emplace] on the increasing list of the elements: the new
    element goes before the first greater one, and is dropped when an
    equivalent one is already there. *)
Fixpoint set_emplace {A} `{Spaceship A} (x : A) (l : list A) : list A :=
  match l with
  | [] => [x]
  | y :: l' =>
      match spaceship x y with
      | Lt => x :: y :: l'
      | Eq => y :: l'
      | Gt => y :: set_emplace x l'
      end
  end.

(** ** Escaping *)

Definition c_backslash : ascii := "092"%char.
Definition c_dquote : ascii := "034"%char.
Definition c_backspace : ascii := "008"%char.
Definition c_formfeed : ascii := "012"%char.
Definition c_newline : ascii := "010"%char.
Definition c_return : ascii := "013"%char.
Definition c_tab : ascii := "009"%char.

(** A one-character string literal, and an escape: a backslash and one
    more character. *)
Definition lit1 (c : ascii) : string := String c "".
Definition lit2 (c : ascii) : string := String c_backslash (String c "").

(** Modelled from the spec: [cpp2::replace_all] (defined in [common.h]) is
    what the serializer calls for each replacement of its list; it replaces
    every occurrence of [what], left to right, and does not search the
    text it has just put in. With [skip] the characters of a match still to
    be dropped. An empty [what] is never passed by the unit and leaves the
    string as it is here. *)
Fixpoint replace_all_from (skip : nat) (s what with_ : string) : string :=
  match s with
  | EmptyString => EmptyString
  | String c s' =>
      match skip with
      | S k => replace_all_from k s' what with_
      | O =>
          if String.prefix what s then
            with_ +:+ replace_all_from (String.length what - 1) s' what with_
          else String c (replace_all_from 0 s' what with_)
      end
  end.

(** Modelled from the spec: [cpp2::replace_all] itself, the replacement
    of every occurrence of [what] in [s] by [with_]. *)
Definition replace_all (s what with_ : string) : string :=
  match what with
  | EmptyString => s
  | _ => replace_all_from 0 s what with_
  end.

(** [sanitize_for_json] *)
Definition sanitize_for_json (s : string) : string :=
  let result := s in
  let result := replace_all result (lit1 c_backslash) (lit2 c_backslash) in
  let result := replace_all result (lit1 c_dquote) (lit2 c_dquote) in
  let result := replace_all result (lit1 c_backspace) (lit2 "b") in
  let result := replace_all result (lit1 c_formfeed) (lit2 "f") in
  let result := replace_all result (lit1 c_newline) (lit2 "n") in
  let result := replace_all result (lit1 c_return) (lit2 "r") in
  let result := replace_all result (lit1 c_tab) (lit2 "t") in
  result.

(** ** Main functions *)

(** The loop of [get_diagnostics] over [sema.declaration_of]. *)
Fixpoint collect_symbols (symbols : list diagnostic_symbol_t)
    (l : list declaration_of_entry) : option (list diagnostic_symbol_t) :=
  match l with
  | [] => Some symbols
  | d :: l' =>
      match read_symbol (sym d) with
      | None => None
      | Some x => collect_symbols (set_emplace x symbols) l'
      end
  end.

(** [get_diagnostics]; the default-constructed position is the one
    [make_scope_map] needs. *)
Definition get_diagnostics (default_position : source_position) (sm : sema)
  : option diagnostics_t :=
  match make_scope_map default_position sm with
  | None => None
  | Some scopes =>
      match collect_symbols [] (declaration_of sm) with
      | None => None
      | Some syms => Some (mk_diagnostics syms (errors sm) scopes)
      end
  end.

(** [std::ostream]: the characters written so far. [o << s] writes a
    string, [o <<# n] an integer in decimal. *)
Definition ostream : Type := string.
Definition put (o : ostream) (s : string) : ostream := o +:+ s.
Definition put_int (o : ostream) (n : Z) : ostream := o +:+ pretty n.

Declare Scope ostream_scope.
Delimit Scope ostream_scope with os.
Infix "<<" := put (at level 50, left associativity) : ostream_scope.
Infix "<<#" := put_int (at level 50, left associativity) : ostream_scope.

(** A double quote, and a word between double quotes. *)
Definition dq : string := lit1 c_dquote.
Definition quoted (s : string) : string := dq +:+ s +:+ dq.

(** The body of the first loop of [print_diagnostics]. *)
Definition print_symbol (o : ostream) (d : diagnostic_symbol_t) : ostream :=
  (o
   << "{ " +:+ quoted "symbol" +:+ ": " +:+ dq << ds_symbol d << dq +:+ ", "
   << quoted "scope" +:+ ": " +:+ dq << ds_scope d << dq +:+ ", "
   << quoted "kind" +:+ ": " +:+ dq << ds_kind d << dq +:+ ", "
   << quoted "lineno" +:+ ": " <<# lineno (ds_position d) << ", "
   << quoted "colno" +:+ ": " <<# colno (ds_position d) << "},")%os.

(** The body of the second loop. *)
Definition print_error (o : ostream) (e : error_entry) : ostream :=
  (o
   << "{" +:+ quoted "symbol" +:+ ": " +:+ dq << err_symbol e << dq +:+ ", "
   << quoted "lineno" +:+ ": " <<# lineno (err_where e) << ", "
   << quoted "colno" +:+ ": " <<# colno (err_where e) << ", "
   << quoted "msg" +:+ ": " +:+ dq << sanitize_for_json (err_msg e)
   << dq +:+ "},")%os.

(** The body of the third loop; [s] is one binding of the map. *)
Definition print_scope (o : ostream) (s : string * diagnostic_scope_range_t)
  : ostream :=
  (o
   << dq << s.1 << dq +:+ ":"
   << "{" +:+ quoted "start" +:+ ": { " +:+ quoted "lineno" +:+ ": "
   <<# lineno (range_start s.2) << ", "
   << quoted "colno" +:+ ": " <<# colno (range_start s.2) << "},"
   << quoted "end" +:+ ": { " +:+ quoted "lineno" +:+ ": "
   <<# lineno (range_end s.2) << ", "
   << quoted "colno" +:+ ": " <<# colno (range_end s.2) << "}},")%os.

(** [print_diagnostics]. The bindings of the unordered map are visited in
    the order [map_to_list] lists them, which stands for the unspecified
    iteration order of the container. *)
Definition print_diagnostics (o : ostream) (diagnostics : diagnostics_t)
  : ostream :=
  let o := (o << "{" +:+ quoted "symbols" +:+ ": [")%os in
  let o := foldl print_symbol o (diag_symbols diagnostics) in
  let o := (o << "], " +:+ quoted "errors" +:+ ": [")%os in
  let o := foldl print_error o (diag_errors diagnostics) in
  let o := (o << "], " +:+ quoted "scopes" +:+ ": {")%os in
  let o := foldl print_scope o (map_to_list (scope_map diagnostics)) in
  (o << "}}")%os.

(** ** The vocabulary of the specification *)

(** *** Declaration kinds *)

(** The kinds a reported symbol can have, and the text the unit uses for
    each. *)
Inductive symbol_kind : Type :=
  | Function | Variable_ | Type_ | Namespace | Unknown.

Definition kind_text (k : symbol_kind) : string :=
  match k with
  | Function => "function"
  | Variable_ => "var"
  | Type_ => "type"
  | Namespace => "namespace"
  | Unknown => "unknown"
  end.

(** The classification by priority: the first query that answers yes, in
    the order is-function, is-object, is-type, is-namespace. *)
Definition classify (decl : declaration_node) : symbol_kind :=
  match
    List.find fst
      [(is_function decl, Function); (is_object decl, Variable_);
       (is_type decl, Type_); (is_namespace decl, Namespace)]
  with
  | Some (_, k) => k
  | None => Unknown
  end.

(** The enclosing scope: the parent's identifier text, empty when there
    is no parent or the parent has no identifier. *)
Definition enclosing_scope (decl : declaration_node) : string :=
  default "" (get_parent decl ≫= decl_identifier).

(** *** Event streams *)

(** The name a declaration-event pushes, if it pushes one. *)
Definition pushed_name (s : symbol) : option string :=
  match s with
  | declaration_active sym =>
      if is_function (declaration sym) || is_namespace (declaration sym)
      then identifier sym else None
  | _ => None
  end.

Definition is_push (s : symbol) : bool := bool_decide (is_Some (pushed_name s)).

(** A scope marker: a compound-event of kind [is_scope]; it is opening or
    closing by its [start] flag. *)
Definition is_scope_marker (s : symbol) : bool :=
  match s with
  | compound_active sym =>
      match kind_ sym with
      | is_scope => true
      | is_other_kind => false
      end
  | _ => false
  end.

Definition is_closing_marker (s : symbol) : bool :=
  match s with
  | compound_active sym => is_scope_marker s && negb (start sym)
  | _ => false
  end.

(** The position a scope marker brings. *)
Definition marker_position (s : symbol) : option source_position :=
  match s with
  | compound_active sym =>
      match kind_ sym with
      | is_scope =>
          Some (if start sym then open_brace (compound sym)
                else close_brace (compound sym))
      | is_other_kind => None
      end
  | _ => None
  end.

Definition pushed_names (evs : list symbol) : list string := omap pushed_name evs.

Definition count_if {A} (f : A → bool) (l : list A) : nat :=
  length (List.filter f l).

(** The stack is non-empty at every scope marker: before each one, more
    names were pushed than scopes closed. *)
Definition no_underflow (evs : list symbol) : Prop :=
  ∀ pre s post,
    evs = pre ++ s :: post →
    is_scope_marker s = true →
    (count_if is_closing_marker pre < count_if is_push pre)%nat.

(** The number of open scopes after [evs], starting with [d] of them;
    [None] when a scope marker arrives with none open. *)
Fixpoint scope_depth (d : nat) (evs : list symbol) : option nat :=
  match evs with
  | [] => Some d
  | s :: evs' =>
      if is_scope_marker s then
        match d with
        | O => None
        | S d' => scope_depth (if is_closing_marker s then d' else d) evs'
        end
      else scope_depth (if is_push s then S d else d) evs'
  end.

(** A balanced stream: no scope marker arrives with no scope open, and no
    scope is left open at the end. *)
Definition balanced (evs : list symbol) : Prop := scope_depth 0 evs = Some 0%nat.

(** The scope markers bring non-decreasing positions, none below [lo]. *)
Fixpoint markers_sorted (lo : source_position) (evs : list symbol) : bool :=
  match evs with
  | [] => true
  | s :: evs' =>
      match marker_position s with
      | Some p => cmp_leb lo p && markers_sorted p evs'
      | None => markers_sorted lo evs'
      end
  end.

(** Every range of [m] is well formed and ends at or before [hi]. *)
Definition ranges_upto (hi : source_position) (m : diagnostic_scope_map) : Prop :=
  map_Forall (λ _ r, cmp_le (range_start r) (range_end r)
                     ∧ cmp_le (range_end r) hi) m.

Definition open_marker (n : compound_statement_node) : symbol :=
  compound_active (mk_compound_sym true n is_scope).
Definition close_marker (n : compound_statement_node) : symbol :=
  compound_active (mk_compound_sym false n is_scope).

(** The events of one scope: its declaration, what comes before its
    opening brace, the brace, the body, the closing brace. *)
Definition scope_events (d : declaration_sym) (gap : list symbol)
    (o : compound_statement_node) (body : list symbol)
    (c : compound_statement_node) : list symbol :=
  declaration_active d :: gap ++ open_marker o :: body ++ [close_marker c].

(** The snapshots on which the unit has defined behaviour: no stack
    underflow, and every table entry has an identifier. *)
Definition sema_defined (sm : sema) : Prop :=
  no_underflow (symbols sm) ∧
  Forall (λ d, is_Some (identifier (sym d))) (declaration_of sm).

(** *** Escaping, character by character *)

Definition escape_char (c : ascii) : string :=
  if decide (c = c_backslash) then lit2 c_backslash
  else if decide (c = c_dquote) then lit2 c_dquote
  else if decide (c = c_backspace) then lit2 "b"
  else if decide (c = c_formfeed) then lit2 "f"
  else if decide (c = c_newline) then lit2 "n"
  else if decide (c = c_return) then lit2 "r"
  else if decide (c = c_tab) then lit2 "t"
  else lit1 c.

Fixpoint string_bind (f : ascii → string) (s : string) : string :=
  match s with
  | EmptyString => EmptyString
  | String c s' => f c +:+ string_bind f s'
  end.

Definition escaped (s : string) : string := string_bind escape_char s.

(** One replacement: every occurrence of the character [c] becomes
    [w]. *)
Definition subst_char (c : ascii) (w : string) (a : ascii) : string :=
  if decide (a = c) then w else lit1 a.

(** The replacements of the serializer, in their order. *)
Definition escape_passes : list (ascii * string) :=
  [ (c_backslash, lit2 c_backslash); (c_dquote, lit2 c_dquote);
    (c_backspace, lit2 "b"); (c_formfeed, lit2 "f"); (c_newline, lit2 "n");
    (c_return, lit2 "r"); (c_tab, lit2 "t") ].

Definition apply_passes (passes : list (ascii * string)) (s : string) : string :=
  foldl (λ acc p, string_bind (subst_char p.1 p.2) acc) s passes.

(** *** The serialized document *)

Definition concat_map {A} (f : A → string) (l : list A) : string :=
  foldr (λ x acc, f x +:+ acc) "" l.

(** A member [key: value] of an object, the value given as text. *)
Definition member (key value : string) : string := quoted key +:+ ": " +:+ value.

Definition position_members (p : source_position) : string :=
  member "lineno" (pretty (lineno p)) +:+ ", " +:+ member "colno" (pretty (colno p)).

Definition symbol_record (d : diagnostic_symbol_t) : string :=
  "{ " +:+ member "symbol" (quoted (ds_symbol d)) +:+ ", "
  +:+ member "scope" (quoted (ds_scope d)) +:+ ", "
  +:+ member "kind" (quoted (ds_kind d)) +:+ ", "
  +:+ position_members (ds_position d) +:+ "},".

Definition error_record (e : error_entry) : string :=
  "{" +:+ member "symbol" (quoted (err_symbol e)) +:+ ", "
  +:+ position_members (err_where e) +:+ ", "
  +:+ member "msg" (quoted (escaped (err_msg e))) +:+ "},".

Definition scope_record (s : string * diagnostic_scope_range_t) : string :=
  quoted s.1 +:+ ":{"
  +:+ member "start" ("{ " +:+ position_members (range_start s.2) +:+ "}") +:+ ","
  +:+ member "end" ("{ " +:+ position_members (range_end s.2) +:+ "}") +:+ "},".

Definition document (d : diagnostics_t) : string :=
  "{" +:+ member "symbols" ("[" +:+ concat_map symbol_record (diag_symbols d) +:+ "]")
  +:+ ", " +:+ member "errors" ("[" +:+ concat_map error_record (diag_errors d) +:+ "]")
  +:+ ", "
  +:+ member "scopes" ("{" +:+ concat_map scope_record (map_to_list (scope_map d)) +:+ "}")
  +:+ "}".

(** [contains needle hay]: [needle] occurs in [hay]. *)
Fixpoint contains (needle hay : string) : bool :=
  String.prefix needle hay ||
  match hay with
  | EmptyString => false
  | String _ hay' => contains needle hay'
  end.

(** A record has a member named [key]. *)
Definition has_member (key record : string) : bool :=
  contains (quoted key +:+ ":") record.

(** ** Sample data *)

(** A function and a namespace declaration with the given name, at the
    top level. *)
Definition function_decl (name : string) (p : source_position) : declaration_sym :=
  mk_declaration_sym
    (mk_declaration_node true false false false (Some name) None p)
    (Some name).

Definition namespace_decl (name : string) (p : source_position) : declaration_sym :=
  mk_declaration_sym
    (mk_declaration_node false false false true (Some name) None p)
    (Some name).

(** A brace pair opened at [(l1, c1)] and closed at [(l2, c2)]. *)
Definition braces (l1 c1 l2 c2 : Z) : compound_statement_node :=
  mk_compound_node (mk_pos l1 c1) (mk_pos l2 c2).

(** A function [f] inside a namespace [N]. *)
Definition nested_stream : list symbol :=
  [ declaration_active (namespace_decl "N" (mk_pos 1 1));
    open_marker (braces 1 10 4 1);
    declaration_active (function_decl "f" (mk_pos 2 1));
    open_marker (braces 2 5 3 1);
    close_marker (braces 2 5 3 1);
    close_marker (braces 1 10 4 1) ].

(** One scope whose closing marker brings a position before the one of
    its opening marker. *)
Definition reversed_stream : list symbol :=
  [ declaration_active (function_decl "f" (mk_pos 5 1));
    open_marker (braces 5 5 1 1);
    close_marker (braces 5 5 1 1) ].

(** Two functions named [x], one after the other. *)
Definition sibling_stream : list symbol :=
  scope_events (function_decl "x" (mk_pos 1 1)) [] (braces 1 8 2 1) [] (braces 1 8 2 1)
  ++ [other_active]
  ++ scope_events (function_decl "x" (mk_pos 3 1)) [] (braces 3 8 4 1) [] (braces 3 8 4 1).

(** Two functions named [x], one after the other, the second with a
    function [g] in its body that has no braces of its own. *)
Definition sibling_inner_stream : list symbol :=
  scope_events (function_decl "x" (mk_pos 1 1)) [] (braces 1 8 2 1) []
               (braces 1 8 2 1)
  ++ scope_events (function_decl "x" (mk_pos 3 1)) [] (braces 3 8 5 1)
       [declaration_active (function_decl "g" (mk_pos 4 1))]
       (braces 3 8 5 1).

(** Two declarations pushed before a single brace pair, then one more
    closing marker. *)
Definition double_push_stream : list symbol :=
  [ declaration_active (function_decl "a" (mk_pos 1 1));
    declaration_active (function_decl "b" (mk_pos 2 1));
    open_marker (braces 2 5 3 1);
    close_marker (braces 2 5 3 1);
    close_marker (braces 1 5 4 1) ].

(** A snapshot: the nested stream, a table in which [f] is declared
    as a function twice at the same place and once more as a variable
    inside [N], and three errors, the first and the last equal. *)
Definition sample_sema : sema :=
  mk_sema nested_stream
    [ mk_declaration_of (function_decl "f" (mk_pos 2 1));
      mk_declaration_of (namespace_decl "N" (mk_pos 1 1));
      mk_declaration_of
        (mk_declaration_sym
           (mk_declaration_node false true false false (Some "f")
              (Some (declaration (namespace_decl "N" (mk_pos 1 1))))
              (mk_pos 7 3))
           (Some "f"));
      mk_declaration_of (function_decl "f" (mk_pos 2 1)) ]
    [ mk_error "f" ("a" +:+ dq +:+ "b") (mk_pos 3 4);
      mk_error "" "second" (mk_pos 1 1);
      mk_error "f" ("a" +:+ dq +:+ "b") (mk_pos 3 4) ].

(** A report with one symbol, one error and one scope. *)
Definition sample_report : diagnostics_t :=
  mk_diagnostics
    [ mk_diagnostic_symbol "f" "function" "N" (mk_pos 2 1) ]
    [ mk_error "f" ("a" +:+ dq +:+ "b") (mk_pos 3 4) ]
    {[ "f" := mk_range (mk_pos 2 5) (mk_pos 3 1) ]}.

(** ** Further vocabulary *)

(** *** Reading an escaped text back *)

(** The character an escape stands for, given the character after the
    backslash. *)
Definition unescape_char (c : ascii) : ascii :=
  if decide (c = "b"%char) then c_backspace
  else if decide (c = "f"%char) then c_formfeed
  else if decide (c = "n"%char) then c_newline
  else if decide (c = "r"%char) then c_return
  else if decide (c = "t"%char) then c_tab
  else c.

(** A backslash and the character after it are read as one character;
    every other character is read as it is. *)
Fixpoint unescape (s : string) : string :=
  match s with
  | EmptyString => EmptyString
  | String c s' =>
      if decide (c = c_backslash) then
        match s' with
        | EmptyString => lit1 c
        | String d s'' => String (unescape_char d) (unescape s'')
        end
      else String c (unescape s')
  end.

(** The characters the serializer replaces. *)
Definition needs_escape (c : ascii) : bool :=
  bool_decide (c ∈ [c_backslash; c_dquote; c_backspace; c_formfeed;
                    c_newline; c_return; c_tab]).

(** The characters that may follow a backslash in an escaped text. *)
Definition escape_letter (c : ascii) : bool :=
  bool_decide (c ∈ [c_backslash; c_dquote; "b"%char; "f"%char; "n"%char;
                    "r"%char; "t"%char]).

(** A text in which a backslash is always followed by an escape letter,
    and which has no double quote and none of the five control characters
    outside these pairs. *)
Fixpoint well_escaped (s : string) : bool :=
  match s with
  | EmptyString => true
  | String c s' =>
      if decide (c = c_backslash) then
        match s' with
        | EmptyString => false
        | String d s'' => escape_letter d && well_escaped s''
        end
      else negb (needs_escape c) && well_escaped s'
  end.

Fixpoint string_count (f : ascii → bool) (s : string) : nat :=
  match s with
  | EmptyString => 0
  | String c s' => (if f c then 1 else 0) + string_count f s'
  end.

(** *** Events the builder acts on *)

(** An event the scope-map builder does something with: a declaration
    that pushes a name, or a scope marker. *)
Definition acts_on (s : symbol) : bool := is_push s || is_scope_marker s.

(** The symbols read from a declaration table, one for each entry with an
    identifier, in the order of the table. *)
Definition read_symbols (l : list declaration_of_entry) : list diagnostic_symbol_t :=
  omap (λ e, read_symbol (sym e)) l.

(** ** Earlier revisions of the unit *)

(** *** The revision that builds the scope map inside [get_diagnostics]

    The types, [read_symbol], [sanitize_for_json] and [print_diagnostics]
    of this revision are those of the final one; its [get_diagnostics]
    holds the scope loop, which enters a range when a name is pushed and
    looks at closing braces only. *)
Module Inline.

(** [cpp2::compound_sym]; this revision tests its [compound] pointer, which
    is therefore optional here. *)
Record compound_sym : Type := mk_compound_sym {
  start : bool;
  compound : option compound_statement_node;
  kind_ : compound_kind
}.

Inductive symbol : Type :=
  | declaration_active (sym : declaration_sym)
  | compound_active (sym : compound_sym)
  | other_active.

Record sema : Type := mk_sema {
  symbols : list symbol;
  declaration_of : list declaration_of_entry;
  errors : list error_entry
}.

Section Loop.

(** The value of a default-constructed [source_position], and
    [declaration_sym::position()], both declared outside the unit. *)
Variable default_position : source_position.
Variable sym_position : declaration_sym → source_position.

(** One iteration of the second loop of [get_diagnostics]. *)
Definition scope_visit (st : scope_state) (s : symbol) : option scope_state :=
  let '(scope_map, current) := st in
  match s with
  | declaration_active sym =>
      if is_function (declaration sym) || is_namespace (declaration sym) then
        match identifier sym with
        | None => Some (scope_map, current)
        | Some name =>
            let pos := sym_position sym in
            Some (<[name := mk_range pos pos]> scope_map, name :: current)
        end
      else Some (scope_map, current)
  | compound_active sym =>
      match start sym, kind_ sym, compound sym with
      | false, is_scope, Some node =>
          match current with
          | [] => None
          | name :: rest =>
              let r := index_or_default default_position scope_map name in
              Some (<[name := mk_range (range_start r) (close_brace node)]>
                      scope_map, rest)
          end
      | _, _, _ => Some (scope_map, current)
      end
  | other_active => Some (scope_map, current)
  end.

Fixpoint scope_loop (st : scope_state) (l : list symbol) : option scope_state :=
  match l with
  | [] => Some st
  | s :: l' =>
      match scope_visit st s with
      | None => None
      | Some st' => scope_loop st' l'
      end
  end.

(** [get_diagnostics] of this revision: the symbols first, then the
    scopes. *)
Definition get_diagnostics (sm : sema) : option diagnostics_t :=
  match collect_symbols [] (declaration_of sm) with
  | None => None
  | Some syms =>
      match scope_loop (∅, []) (symbols sm) with
      | None => None
      | Some (scopes, _) => Some (mk_diagnostics syms (errors sm) scopes)
      end
  end.

End Loop.

(** The declaration whose name an event pushes. *)
Definition pushing (s : symbol) : option (string * declaration_sym) :=
  match s with
  | declaration_active sym =>
      if is_function (declaration sym) || is_namespace (declaration sym)
      then (λ name, (name, sym)) <$> identifier sym else None
  | _ => None
  end.

(** The brace pair whose closing an event reports: a compound-event that
    is not a start, is a scope and has its node. *)
Definition closing (s : symbol) : option compound_statement_node :=
  match s with
  | compound_active sym =>
      match start sym, kind_ sym with
      | false, is_scope => compound sym
      | _, _ => None
      end
  | _ => None
  end.

Definition pushed_names (evs : list symbol) : list string :=
  omap (λ s, fst <$> pushing s) evs.

Definition acts_on (s : symbol) : bool :=
  bool_decide (is_Some (pushing s)) || bool_decide (is_Some (closing s)).

(** How an entry of the map after the loop relates to the map [m] before
    it and to the events: it is untouched, or an older range ended at a
    closing brace of the stream, or a range started at a declaration
    pushed in the stream and ended there or at a closing brace of the
    stream. *)
Definition entry_from (pos : declaration_sym → source_position)
    (m : diagnostic_scope_map) (evs : list symbol)
    (name : string) (r : diagnostic_scope_range_t) : Prop :=
  m !! name = Some r
  ∨ (∃ r0 s node,
       m !! name = Some r0 ∧ range_start r0 = range_start r
       ∧ s ∈ evs ∧ closing s = Some node
       ∧ range_end r = close_brace node)
  ∨ (∃ s sym,
       s ∈ evs ∧ pushing s = Some (name, sym)
       ∧ range_start r = pos sym
       ∧ (range_end r = pos sym
          ∨ ∃ s' node, s' ∈ evs ∧ closing s' = Some node
                       ∧ range_end r = close_brace node)).

(** A function declared and never given braces, then a function with
    braces. *)
Definition sample_sema : sema :=
  mk_sema
    [ declaration_active (function_decl "g" (mk_pos 1 1));
      declaration_active (function_decl "f" (mk_pos 2 1));
      compound_active (mk_compound_sym true (Some (braces 2 5 3 1)) is_scope);
      compound_active (mk_compound_sym false (Some (braces 2 5 3 1)) is_scope) ]
    [ mk_declaration_of (function_decl "f" (mk_pos 2 1)) ]
    [].

End Inline.

(** *** The two earliest revisions

    Both declare a symbol as a name, a line and a column, and fill the
    symbol set by the same loop; they differ in their errors and in what
    they print. *)
Module Early.

Record diagnostic_symbol_t : Type := mk_symbol {
  s_symbol : string;
  s_lineno : Z;
  s_colno : Z
}.

#[global] Instance early_symbol_eq_dec : EqDecision diagnostic_symbol_t.
Proof. solve_decision. Defined.

(** The members in declaration order. *)
Definition symbol_key (d : diagnostic_symbol_t) : string * (Z * Z) :=
  (s_symbol d, (s_lineno d, s_colno d)).

(** The defaulted [operator<=>]. *)
#[global] Instance early_symbol_spaceship : Spaceship diagnostic_symbol_t :=
  λ a b, spaceship (symbol_key a) (symbol_key b).

(** What the first loop of [get_diagnostics] emplaces for one entry;
    [d.second.sym->identifier] is dereferenced unchecked. *)
Definition read_entry (d : declaration_of_entry) : option diagnostic_symbol_t :=
  match identifier (sym d) with
  | None => None
  | Some tok =>
      Some (mk_symbol tok
              (lineno (position (declaration (sym d))))
              (colno (position (declaration (sym d)))))
  end.

(** The first loop of [get_diagnostics]. *)
Fixpoint collect_symbols (symbols : list diagnostic_symbol_t)
    (l : list declaration_of_entry) : option (list diagnostic_symbol_t) :=
  match l with
  | [] => Some symbols
  | d :: l' =>
      match read_entry d with
      | None => None
      | Some x => collect_symbols (set_emplace x symbols) l'
      end
  end.

End Early.

(** *** The first revision: [diagnostics.h] *)
Module Plain.

Record diagnostic_error_t : Type := mk_error {
  e_symbol : string;
  e_msg : string;
  e_lineno : Z;
  e_colno : Z
}.

Record diagnostics_t : Type := mk_diagnostics {
  d_symbols : list Early.diagnostic_symbol_t;
  d_errors : list diagnostic_error_t
}.

(** What the second loop of [get_diagnostics] makes of one error. *)
Definition read_error (e : error_entry) : diagnostic_error_t :=
  mk_error "" (err_msg e) (lineno (err_where e)) (colno (err_where e)).

(** The second loop: [emplace_back] puts the new error after the
    others. *)
Definition collect_errors (l : list error_entry) : list diagnostic_error_t :=
  foldl (λ acc e, acc ++ [read_error e]) [] l.

(** [get_diagnostics] *)
Definition get_diagnostics (sm : sema) : option diagnostics_t :=
  match Early.collect_symbols [] (declaration_of sm) with
  | None => None
  | Some syms => Some (mk_diagnostics syms (collect_errors (errors sm)))
  end.

(** A line feed, as the string literals of this revision have it. *)
Definition nl : string := lit1 c_newline.

(** The bodies of the two loops of [print_diagnostics]. *)
Definition print_symbol (o : ostream) (d : Early.diagnostic_symbol_t) : ostream :=
  (o
   << "{ " +:+ quoted "symbol" +:+ ": " +:+ dq << Early.s_symbol d << dq +:+ ", "
   << quoted "lineno" +:+ ": " <<# Early.s_lineno d << ", "
   << quoted "colno" +:+ ": " <<# Early.s_colno d << "}," +:+ nl)%os.

Definition print_error (o : ostream) (e : diagnostic_error_t) : ostream :=
  (o
   << "{ " +:+ quoted "symbol" +:+ ": " +:+ dq << e_symbol e << dq +:+ ","
   << quoted "lineno" +:+ ": " <<# e_lineno e << dq +:+ ","
   << quoted "colno" +:+ ": " <<# e_colno e << dq +:+ ","
   << quoted "msg" +:+ ": " +:+ dq << e_msg e << dq +:+ "}," +:+ nl)%os.

(** [print_diagnostics] *)
Definition print_diagnostics (o : ostream) (diagnostics : diagnostics_t)
  : ostream :=
  let o := (o << "{" +:+ quoted "symbols" +:+ ": [" +:+ nl)%os in
  let o := foldl print_symbol o (d_symbols diagnostics) in
  let o := (o << "]" +:+ nl +:+ ", " +:+ quoted "errors" +:+ ": [" +:+ nl)%os in
  let o := foldl print_error o (d_errors diagnostics) in
  (o << "]" +:+ nl +:+ "}")%os.

(** What this revision writes for one error. *)
Definition error_record (e : diagnostic_error_t) : string :=
  "{ " +:+ quoted "symbol" +:+ ": " +:+ quoted (e_symbol e) +:+ ","
  +:+ quoted "lineno" +:+ ": " +:+ pretty (e_lineno e) +:+ dq +:+ ","
  +:+ quoted "colno" +:+ ": " +:+ pretty (e_colno e) +:+ dq +:+ ","
  +:+ quoted "msg" +:+ ": " +:+ quoted (e_msg e) +:+ "}," +:+ nl.

Definition symbol_record (d : Early.diagnostic_symbol_t) : string :=
  "{ " +:+ member "symbol" (quoted (Early.s_symbol d)) +:+ ", "
  +:+ member "lineno" (pretty (Early.s_lineno d)) +:+ ", "
  +:+ member "colno" (pretty (Early.s_colno d)) +:+ "}," +:+ nl.

End Plain.

(** *** The second revision: errors with their source file *)
Module FileTagged.

Record diagnostic_error_t : Type := mk_error {
  e_file : string;
  e_symbol : string;
  e_msg : string;
  e_lineno : Z;
  e_colno : Z
}.

Record diagnostics_t : Type := mk_diagnostics {
  d_symbols : list Early.diagnostic_symbol_t;
  d_errors : list diagnostic_error_t
}.

(** What the second loop of [get_diagnostics] makes of one error. *)
Definition read_error (sourcefile : string) (e : error_entry)
  : diagnostic_error_t :=
  mk_error sourcefile (err_symbol e) (err_msg e)
           (lineno (err_where e)) (colno (err_where e)).

Definition collect_errors (sourcefile : string) (l : list error_entry)
  : list diagnostic_error_t :=
  foldl (λ acc e, acc ++ [read_error sourcefile e]) [] l.

(** [get_diagnostics] *)
Definition get_diagnostics (sourcefile : string) (sm : sema)
  : option diagnostics_t :=
  match Early.collect_symbols [] (declaration_of sm) with
  | None => None
  | Some syms =>
      Some (mk_diagnostics syms (collect_errors sourcefile (errors sm)))
  end.

(** The bodies of the two loops of [print_diagnostics]. *)
Definition print_symbol (o : ostream) (d : Early.diagnostic_symbol_t) : ostream :=
  (o
   << "{ " +:+ quoted "symbol" +:+ ": " +:+ dq << Early.s_symbol d << dq +:+ ", "
   << quoted "lineno" +:+ ": " <<# Early.s_lineno d << ", "
   << quoted "colno" +:+ ": " <<# Early.s_colno d << "},")%os.

Definition print_error (o : ostream) (e : diagnostic_error_t) : ostream :=
  (o
   << "{" +:+ quoted "file" +:+ ": " +:+ dq << e_file e << dq +:+ ", "
   << quoted "symbol" +:+ ": " +:+ dq << e_symbol e << dq +:+ ", "
   << quoted "lineno" +:+ ": " <<# e_lineno e << ", "
   << quoted "colno" +:+ ": " <<# e_colno e << ", "
   << quoted "msg" +:+ ": " +:+ dq << sanitize_for_json (e_msg e)
   << dq +:+ "},")%os.

(** [print_diagnostics] *)
Definition print_diagnostics (o : ostream) (diagnostics : diagnostics_t)
  : ostream :=
  let o := (o << "{" +:+ quoted "symbols" +:+ ": [")%os in
  let o := foldl print_symbol o (d_symbols diagnostics) in
  let o := (o << "], " +:+ quoted "errors" +:+ ": [")%os in
  let o := foldl print_error o (d_errors diagnostics) in
  (o << "]}")%os.

(** What this revision writes for one symbol and for one error. *)
Definition symbol_record (d : Early.diagnostic_symbol_t) : string :=
  "{ " +:+ member "symbol" (quoted (Early.s_symbol d)) +:+ ", "
  +:+ member "lineno" (pretty (Early.s_lineno d)) +:+ ", "
  +:+ member "colno" (pretty (Early.s_colno d)) +:+ "},".

Definition error_record (e : diagnostic_error_t) : string :=
  "{" +:+ member "file" (quoted (e_file e)) +:+ ", "
  +:+ member "symbol" (quoted (e_symbol e)) +:+ ", "
  +:+ member "lineno" (pretty (e_lineno e)) +:+ ", "
  +:+ member "colno" (pretty (e_colno e)) +:+ ", "
  +:+ member "msg" (quoted (escaped (e_msg e))) +:+ "},".

End FileTagged.

(** * Properties *)

(** ** Three-way comparisons are strict total orders *)

#[global] Instance Z_spaceship_laws : SpaceshipLaws Z.
Proof.
  split; unfold spaceship, Z_spaceship.
  - apply Z.compare_eq_iff.
  - intros a b. apply Z.compare_antisym.
  - intros a b c. rewrite !Z.compare_lt_iff. lia.
Qed.

Lemma string_compare_refl (s : string) : String.compare s s = Eq.
Proof.
  induction s as [|c s IH]; simpl; [done|].
  unfold Ascii.compare. by rewrite N.compare_refl.
Qed.

#[global] Instance string_spaceship_laws : SpaceshipLaws string.
Proof.
  split; unfold spaceship, string_spaceship.
  - intros a b. split; [apply String.compare_eq_iff|].
    intros ->. apply string_compare_refl.
  - intros a b. apply String.compare_antisym.
  - intros a b c Hab Hbc.
    assert (String.le a c) as Hac.
    { trans b; unfold String.le, String.leb; [by rewrite Hab|by rewrite Hbc]. }
    unfold String.le, String.leb in Hac.
    destruct (String.compare a c) eqn:E; [|done..].
    apply String.compare_eq_iff in E as ->.
    rewrite String.compare_antisym, Hab in Hbc. done.
Qed.

#[global] Instance prod_spaceship_laws {A B}
  `{SpaceshipLaws A, SpaceshipLaws B} : SpaceshipLaws (A * B).
Proof.
  split; unfold spaceship, prod_spaceship.
  - intros [a1 a2] [b1 b2]. simpl. split.
    + destruct (spaceship a1 b1) eqn:E1; simpl; try done.
      intros E2. apply spaceship_eq in E1, E2. by subst.
    + intros [= -> ->].
      rewrite (proj2 (spaceship_eq b1 b1) eq_refl). simpl.
      by apply spaceship_eq.
  - intros [a1 a2] [b1 b2]. simpl.
    rewrite (spaceship_antisym a1 b1), (spaceship_antisym a2 b2).
    by destruct (spaceship a1 b1).
  - intros [a1 a2] [b1 b2] [c1 c2]. simpl.
    destruct (spaceship a1 b1) eqn:E1; simpl; try done.
    + apply spaceship_eq in E1 as ->. destruct (spaceship b1 c1); simpl; try done.
      apply spaceship_trans.
    + intros _. destruct (spaceship b1 c1) eqn:E2; simpl; try done.
      * apply spaceship_eq in E2 as <-. by rewrite E1.
      * by rewrite (spaceship_trans _ _ _ E1 E2).
Qed.

(** A record compared through the tuple of its members. *)
Lemma spaceship_laws_by_key {A K} `{SpaceshipLaws K} (key : A → K)
    `{!Inj (=) (=) key} :
  @SpaceshipLaws A (λ a b, spaceship (key a) (key b)).
Proof.
  split.
  - intros a b. change (spaceship (key a) (key b) = Eq ↔ a = b).
    rewrite spaceship_eq. split; [apply (inj key)|by intros ->].
  - intros a b. apply (spaceship_antisym (key a) (key b)).
  - intros a b c. apply (spaceship_trans (key a) (key b) (key c)).
Qed.

#[global] Instance position_key_inj : Inj (=) (=) position_key.
Proof. intros [l1 c1] [l2 c2] [= -> ->]. done. Qed.

#[global] Instance symbol_key_inj : Inj (=) (=) symbol_key.
Proof. intros [n1 k1 s1 p1] [n2 k2 s2 p2] [= -> -> -> ->]. done. Qed.

#[global] Instance source_position_laws : SpaceshipLaws source_position.
Proof. apply (spaceship_laws_by_key position_key). Qed.

#[global] Instance diagnostic_symbol_laws : SpaceshipLaws diagnostic_symbol_t.
Proof. apply (spaceship_laws_by_key symbol_key). Qed.

Section OrderFacts.

Context {A : Type} `{SpaceshipLaws A}.

Implicit Types a b c : A.

Lemma spaceship_refl a : spaceship a a = Eq.
Proof. by apply spaceship_eq. Qed.

Lemma spaceship_gt_lt a b : spaceship a b = Gt ↔ spaceship b a = Lt.
Proof. rewrite (spaceship_antisym a b). by destruct (spaceship a b). Qed.

Lemma cmp_lt_irrefl a : ¬ cmp_lt a a.
Proof. unfold cmp_lt. by rewrite spaceship_refl. Qed.

Lemma cmp_lt_trans a b c : cmp_lt a b → cmp_lt b c → cmp_lt a c.
Proof. apply spaceship_trans. Qed.

Lemma cmp_le_refl a : cmp_le a a.
Proof. unfold cmp_le. by rewrite spaceship_refl. Qed.

Lemma cmp_le_trans a b c : cmp_le a b → cmp_le b c → cmp_le a c.
Proof.
  unfold cmp_le. intros Hab Hbc Hac.
  apply spaceship_gt_lt in Hac.
  destruct (spaceship a b) eqn:E1; [| |done].
  - apply spaceship_eq in E1 as ->. apply spaceship_gt_lt in Hac. done.
  - apply Hbc. apply spaceship_gt_lt. by apply (spaceship_trans c a b).
Qed.

Lemma cmp_leb_le a b : cmp_leb a b = true ↔ cmp_le a b.
Proof. unfold cmp_leb, cmp_le. by destruct (spaceship a b). Qed.

Lemma cmp_lt_not_le a b : cmp_lt a b → ¬ cmp_le b a.
Proof. unfold cmp_lt, cmp_le. rewrite <- spaceship_gt_lt. tauto. Qed.

End OrderFacts.

(** ** The scope-map builder *)

Section ScopeMapFacts.

Context (dp : source_position).

Implicit Types (m : diagnostic_scope_map) (st ext base : list string).
Implicit Types (evs seg : list symbol) (s : symbol).

Lemma scope_loop_app (σ : scope_state) evs1 evs2 :
  scope_loop dp σ (evs1 ++ evs2)
  = scope_loop dp σ evs1 ≫= λ σ', scope_loop dp σ' evs2.
Proof.
  revert σ. induction evs1 as [|s evs1 IH]; intros σ; simpl; [done|].
  destruct (scope_visit dp σ s); simpl; auto.
Qed.

Lemma scope_depth_app d evs1 evs2 :
  scope_depth d (evs1 ++ evs2)
  = scope_depth d evs1 ≫= λ d', scope_depth d' evs2.
Proof.
  revert d. induction evs1 as [|s evs1 IH]; intros d; simpl; [done|].
  destruct (is_scope_marker s); [destruct d|]; simpl; auto.
Qed.

Lemma scope_depth_shift n evs :
  ∀ d k, scope_depth d evs = Some k →
         scope_depth (d + n) evs = Some (k + n)%nat.
Proof.
  induction evs as [|s evs IH]; intros d k; simpl.
  - by intros [= ->].
  - destruct (is_scope_marker s).
    + destruct d as [|d]; [done|]. simpl.
      destruct (is_closing_marker s); intros H; by apply IH in H.
    + destruct (is_push s); intros H; by apply IH in H.
Qed.

Lemma balanced_from d evs : balanced evs → scope_depth d evs = Some d.
Proof. intros H. by apply (scope_depth_shift d) in H. Qed.

(** The three kinds of event, as the builder treats them. *)
Lemma scope_visit_push m st s name :
  pushed_name s = Some name →
  is_scope_marker s = false ∧ scope_visit dp (m, st) s = Some (m, name :: st).
Proof.
  destruct s as [sym|sym|]; simpl; try done.
  destruct (is_function _ || is_namespace _); [|done]. by intros ->.
Qed.

Lemma scope_visit_ignored m st s :
  pushed_name s = None → is_scope_marker s = false →
  scope_visit dp (m, st) s = Some (m, st).
Proof.
  destruct s as [sym|sym|]; simpl; try done.
  - destruct (is_function _ || is_namespace _); [|done]. by intros ->.
  - by destruct (kind_ sym).
Qed.

Lemma scope_visit_marker m st s :
  is_scope_marker s = true →
  pushed_name s = None ∧
  scope_visit dp (m, st) s =
    match st with
    | [] => None
    | name :: rest =>
        if is_closing_marker s then
          Some (<[name := mk_range (range_start (index_or_default dp m name))
                                   (default dp (marker_position s))]> m, rest)
        else
          Some (<[name := mk_range (default dp (marker_position s))
                                   (default dp (marker_position s))]> m, st)
    end.
Proof.
  destruct s as [sym|sym|]; simpl; try done.
  destruct (kind_ sym); [|done]. intros _. split; [done|].
  destruct st as [|name rest]; [done|]. by destruct (start sym).
Qed.

Lemma is_push_Some s name : pushed_name s = Some name → is_push s = true.
Proof. intros H. unfold is_push. rewrite H. by apply bool_decide_eq_true. Qed.

Lemma is_push_None s : pushed_name s = None → is_push s = false.
Proof.
  intros H. unfold is_push. rewrite H. apply bool_decide_eq_false.
  by intros [? ?].
Qed.

(** A segment that is well nested above [length ext] open scopes runs
    without touching the stack below them, and leaves alone the entry of
    every name that is neither pushed in it nor open above the base. *)
#[local] Arguments scope_visit : simpl never.

Lemma scope_loop_frame x seg :
  ∀ m ext base k,
    scope_depth (length ext) seg = Some k →
    ∃ m' ext',
      scope_loop dp (m, ext ++ base) seg = Some (m', ext' ++ base) ∧
      length ext' = k ∧
      (x ∉ pushed_names seg → x ∉ ext → (x ∉ ext') ∧ (m' !! x = m !! x)).
Proof.
  induction seg as [|s seg IH]; intros m ext base k Hd; simpl in Hd.
  { injection Hd as <-. by exists m, ext. }
  destruct (is_scope_marker s) eqn:Hmk.
  - destruct (scope_visit_marker m (ext ++ base) s Hmk) as [Hnp Hstep].
    assert (pushed_names (s :: seg) = pushed_names seg) as ->.
    { unfold pushed_names. simpl. by rewrite Hnp. }
    destruct ext as [|name ext]; [done|]. simpl in Hd, Hstep.
    destruct (is_closing_marker s).
    + set (m1 := <[name := _]> m) in Hstep.
      destruct (IH m1 ext base k Hd) as (m' & ext' & Hrun & Hl & Hx).
      exists m', ext'. split_and!; [|done|].
      { simpl. rewrite Hstep. exact Hrun. }
      intros Hp [Hne Hext]%not_elem_of_cons.
      destruct (Hx Hp Hext) as [? ->]. unfold m1. by rewrite lookup_insert_ne.
    + set (m1 := <[name := _]> m) in Hstep.
      destruct (IH m1 (name :: ext) base k Hd) as (m' & ext' & Hrun & Hl & Hx).
      exists m', ext'. split_and!; [|done|].
      { simpl. rewrite Hstep. exact Hrun. }
      intros Hp Hin. destruct (Hx Hp Hin) as [? ->].
      apply not_elem_of_cons in Hin as [Hne _]. unfold m1.
      by rewrite lookup_insert_ne.
  - destruct (pushed_name s) as [name|] eqn:Hp.
    + destruct (scope_visit_push m (ext ++ base) s name Hp) as [_ Hstep].
      rewrite (is_push_Some s name Hp) in Hd.
      assert (pushed_names (s :: seg) = name :: pushed_names seg) as ->.
      { unfold pushed_names. simpl. by rewrite Hp. }
      destruct (IH m (name :: ext) base k Hd) as (m' & ext' & Hrun & Hl & Hx).
      exists m', ext'. split_and!; [|done|].
      { simpl. rewrite Hstep. exact Hrun. }
      intros [Hne Hps]%not_elem_of_cons Hext. apply Hx; [done|].
      by apply not_elem_of_cons.
    + rewrite (is_push_None s Hp) in Hd.
      assert (pushed_names (s :: seg) = pushed_names seg) as ->.
      { unfold pushed_names. simpl. by rewrite Hp. }
      destruct (IH m ext base k Hd) as (m' & ext' & Hrun & Hl & Hx).
      exists m', ext'. split_and!; [|done..].
      simpl. rewrite (scope_visit_ignored m (ext ++ base) s Hp Hmk). exact Hrun.
Qed.

(** The run is defined exactly when the depth count is, and the stack
    then has the counted depth. *)
Lemma scope_loop_depth evs :
  ∀ m st,
    (length ∘ snd) <$> scope_loop dp (m, st) evs
    = scope_depth (length st) evs.
Proof.
  induction evs as [|s evs IH]; intros m st; simpl; [done|].
  destruct (is_scope_marker s) eqn:Hmk.
  - destruct (scope_visit_marker m st s Hmk) as [_ ->].
    destruct st as [|name rest]; [done|]. simpl.
    destruct (is_closing_marker s); apply IH.
  - destruct (pushed_name s) as [name|] eqn:Hp.
    + destruct (scope_visit_push m st s name Hp) as [_ ->].
      rewrite (is_push_Some s name Hp). apply IH.
    + rewrite (scope_visit_ignored m st s Hp Hmk), (is_push_None s Hp).
      apply IH.
Qed.

Lemma marker_not_push s : is_scope_marker s = true → is_push s = false.
Proof. intros Hmk. apply is_push_None. by destruct s. Qed.

Lemma closing_is_marker s :
  is_closing_marker s = true → is_scope_marker s = true.
Proof. destruct s; simpl; try done. by intros [? _]%andb_true_iff. Qed.

Lemma count_if_cons {A} (f : A → bool) (a : A) (l : list A) :
  count_if f (a :: l) = ((if f a then 1 else 0) + count_if f l)%nat.
Proof. unfold count_if. simpl. by destruct (f a). Qed.

(** The depth count in terms of the numbers of pushes and of closing
    markers. *)
Lemma scope_depth_counts evs :
  ∀ d k, scope_depth d evs = Some k →
         (k + count_if is_closing_marker evs = d + count_if is_push evs)%nat.
Proof.
  induction evs as [|s evs IH]; intros d k; simpl.
  { intros [= ->]. unfold count_if. simpl. lia. }
  rewrite !count_if_cons.
  destruct (is_scope_marker s) eqn:Hmk.
  - rewrite (marker_not_push s Hmk). destruct d as [|d]; [done|].
    destruct (is_closing_marker s); intros Hd%IH; lia.
  - destruct (is_closing_marker s) eqn:Hc.
    { apply closing_is_marker in Hc. congruence. }
    destruct (is_push s); intros Hd%IH; lia.
Qed.

Lemma scope_depth_defined evs :
  ∀ d, is_Some (scope_depth d evs) ↔
       ∀ pre s post,
         evs = pre ++ s :: post → is_scope_marker s = true →
         (count_if is_closing_marker pre < d + count_if is_push pre)%nat.
Proof.
  induction evs as [|s0 evs IH]; intros d; simpl.
  { split; [|by eauto]. intros _ [|??] ?? ?; done. }
  split.
  - intros Hd [|s1 pre] s post Heq Hmk; simplify_eq/=.
    + rewrite Hmk in Hd. destruct d; [by destruct Hd|].
      unfold count_if. simpl. lia.
    + rewrite !count_if_cons.
      destruct (is_scope_marker s1) eqn:Hmk1.
      * rewrite (marker_not_push s1 Hmk1). destruct d as [|d]; [by destruct Hd|].
        destruct (is_closing_marker s1);
          pose proof (proj1 (IH _) Hd pre s post eq_refl Hmk); lia.
      * destruct (is_closing_marker s1) eqn:Hc.
        { apply closing_is_marker in Hc. congruence. }
        destruct (is_push s1);
          pose proof (proj1 (IH _) Hd pre s post eq_refl Hmk); lia.
  - intros Hall.
    assert (∀ d',
      (∀ pre, (count_if is_closing_marker (s0 :: pre) < d + count_if is_push (s0 :: pre))%nat →
              (count_if is_closing_marker pre < d' + count_if is_push pre)%nat) →
      is_Some (scope_depth d' evs)) as Htail.
    { intros d' Hshift. apply IH. intros pre s post -> Hmk.
      apply Hshift. by apply (Hall (s0 :: pre) s post). }
    destruct (is_scope_marker s0) eqn:Hmk.
    + pose proof (Hall [] s0 evs eq_refl Hmk) as H0.
      unfold count_if in H0. simpl in H0.
      destruct d as [|d]; [lia|].
      destruct (is_closing_marker s0) eqn:Hc; apply Htail; intros pre;
        rewrite !count_if_cons, Hc, (marker_not_push s0 Hmk); lia.
    + destruct (is_closing_marker s0) eqn:Hc.
      { apply closing_is_marker in Hc. congruence. }
      destruct (is_push s0) eqn:Hp; apply Htail; intros pre;
        rewrite !count_if_cons, Hc, Hp; lia.
Qed.

Lemma make_scope_map_defined sm :
  is_Some (make_scope_map dp sm) ↔ no_underflow (symbols sm).
Proof.
  unfold make_scope_map, no_underflow.
  rewrite <- (scope_depth_defined (symbols sm) 0).
  change 0%nat with (length (@nil string)).
  rewrite <- (scope_loop_depth (symbols sm) ∅ []).
  by rewrite !fmap_is_Some.
Qed.

(** Which names have an entry: those already there, and the names that
    left the stack or are still on it. *)
Lemma scope_loop_dom evs :
  ∀ m st m' st',
    scope_loop dp (m, st) evs = Some (m', st') →
    dom m' ∪ list_to_set st'
    =@{gset string} dom m ∪ list_to_set st ∪ list_to_set (pushed_names evs).
Proof.
  induction evs as [|s evs IH]; intros m st m' st' Hrun; simpl in Hrun.
  { injection Hrun as <- <-. set_solver. }
  destruct (is_scope_marker s) eqn:Hmk.
  - destruct (scope_visit_marker m st s Hmk) as [Hnp Hstep].
    rewrite Hstep in Hrun.
    assert (pushed_names (s :: evs) = pushed_names evs) as ->.
    { unfold pushed_names. simpl. by rewrite Hnp. }
    destruct st as [|name rest]; [done|].
    destruct (is_closing_marker s); apply IH in Hrun as ->;
      rewrite dom_insert_L; set_solver.
  - destruct (pushed_name s) as [name|] eqn:Hp.
    + destruct (scope_visit_push m st s name Hp) as [_ Hstep].
      rewrite Hstep in Hrun.
      assert (pushed_names (s :: evs) = name :: pushed_names evs) as ->.
      { unfold pushed_names. simpl. by rewrite Hp. }
      apply IH in Hrun as ->. set_solver.
    + rewrite (scope_visit_ignored m st s Hp Hmk) in Hrun.
      assert (pushed_names (s :: evs) = pushed_names evs) as ->.
      { unfold pushed_names. simpl. by rewrite Hp. }
      by apply IH.
Qed.

Lemma ranges_upto_mono lo hi m :
  cmp_le lo hi → ranges_upto lo m → ranges_upto hi m.
Proof.
  intros Hle Hm name r Hr. destruct (Hm name r Hr) as [? ?].
  split; [done|]. by apply (cmp_le_trans _ lo).
Qed.

Lemma scope_loop_ordered evs :
  ∀ m st lo m' st',
    cmp_le dp lo → ranges_upto lo m →
    markers_sorted lo evs = true →
    scope_loop dp (m, st) evs = Some (m', st') →
    ∃ hi, ranges_upto hi m'.
Proof.
  induction evs as [|s evs IH]; intros m st lo m' st' Hdp Hm; simpl.
  { intros _ [= <- <-]. by exists lo. }
  destruct (is_scope_marker s) eqn:Hmk.
  - destruct (scope_visit_marker m st s Hmk) as [_ ->].
    destruct (marker_position s) as [p|] eqn:Hpos;
      [|by destruct s as [|c|]; try done; simpl in *; destruct (kind_ c)].
    intros [Hlo%cmp_leb_le Hs]%andb_true_iff. simpl.
    destruct st as [|name rest]; [done|].
    assert (cmp_le dp p) as Hdp' by by apply (cmp_le_trans _ lo).
    pose proof (ranges_upto_mono lo p m Hlo Hm) as Hm'.
    destruct (is_closing_marker s).
    + apply (IH _ _ p); [done| |done].
      apply map_Forall_insert_2; [|done]. simpl. split; [|apply cmp_le_refl].
      unfold index_or_default.
      destruct (m !! name) as [r|] eqn:Hr; simpl; [|done].
      destruct (Hm' name r Hr) as [? ?]. by apply (cmp_le_trans _ (range_end r)).
    + apply (IH _ _ p); [done| |done].
      apply map_Forall_insert_2; [|done]. simpl. split; apply cmp_le_refl.
  - assert (marker_position s = None) as ->.
    { destruct s as [|c|]; try done. simpl in *. by destruct (kind_ c). }
    destruct (pushed_name s) as [name|] eqn:Hp.
    + destruct (scope_visit_push m st s name Hp) as [_ ->]. by apply IH.
    + rewrite (scope_visit_ignored m st s Hp Hmk). by apply IH.
Qed.

(** What an opening and a closing scope marker do to a non-empty
    stack. *)
Lemma scope_visit_open m name st n :
  scope_visit dp (m, name :: st) (open_marker n)
  = Some (<[name := mk_range (open_brace n) (open_brace n)]> m, name :: st).
Proof. done. Qed.

Lemma scope_visit_close m name st n :
  scope_visit dp (m, name :: st) (close_marker n)
  = Some (<[name := mk_range (range_start (index_or_default dp m name))
                             (close_brace n)]> m, st).
Proof. done. Qed.

(** One scope, run from any state: its name is pushed, the opening
    brace starts its entry, the closing brace ends it and pops the
    name. *)
Lemma scope_loop_scope_events m st d gap o body c name :
  pushed_name (declaration_active d) = Some name →
  balanced gap → balanced body →
  name ∉ pushed_names gap → name ∉ pushed_names body →
  ∃ m', scope_loop dp (m, st) (scope_events d gap o body c) = Some (m', st)
        ∧ m' !! name = Some (mk_range (open_brace o) (close_brace c)).
Proof.
  intros Hd Hgap Hbody Hng Hnb. unfold scope_events.
  change (declaration_active d :: gap ++ open_marker o :: body ++ [close_marker c])
    with ([declaration_active d] ++ gap ++ [open_marker o] ++ body ++ [close_marker c]).
  destruct (scope_visit_push m st _ name Hd) as [_ Hpush].
  destruct (scope_loop_frame name gap m [] (name :: st) 0 Hgap)
    as (m1 & ext1 & Hrun1 & ->%nil_length_inv & Hx1).
  set (m2 := <[name := mk_range (open_brace o) (open_brace o)]> m1).
  destruct (scope_loop_frame name body m2 [] (name :: st) 0 Hbody)
    as (m3 & ext3 & Hrun3 & ->%nil_length_inv & Hx3).
  destruct (Hx3 Hnb) as [_ Hm3]; [set_solver|].
  simpl in Hrun1, Hrun3.
  exists (<[name := mk_range (open_brace o) (close_brace c)]> m3).
  split; [|by rewrite lookup_insert_eq].
  rewrite scope_loop_app. simpl. rewrite Hpush. simpl.
  rewrite scope_loop_app, Hrun1. simpl. fold m2.
  rewrite scope_loop_app, Hrun3. simpl.
  unfold index_or_default. rewrite Hm3. unfold m2.
  by rewrite lookup_insert_eq.
Qed.

Lemma scope_loop_underflow evs :
  ∀ m st,
    scope_loop dp (m, st) evs = None ↔
    ∃ pre s post m',
      evs = pre ++ s :: post ∧ is_scope_marker s = true
      ∧ scope_loop dp (m, st) pre = Some (m', []).
Proof.
  induction evs as [|s0 evs IH]; intros m st; simpl.
  { split; [done|]. by intros ([|??] & ? & ? & ? & ? & _). }
  destruct (scope_visit dp (m, st) s0) as [[m1 st1]|] eqn:Hstep.
  - rewrite IH. split.
    + intros (pre & s & post & m' & -> & Hmk & Hrun).
      exists (s0 :: pre), s, post, m'. split_and!; [done..|].
      simpl. by rewrite Hstep.
    + intros ([|s1 pre] & s & post & m' & Heq & Hmk & Hrun); simplify_eq/=.
      * destruct (scope_visit_marker m' [] s Hmk) as [_ Hnone]. congruence.
      * rewrite Hstep in Hrun. by exists pre, s, post, m'.
  - split; [intros _|done].
    exists [], s0, evs, m.
    destruct (is_scope_marker s0) eqn:Hmk.
    + destruct (scope_visit_marker m st s0 Hmk) as [_ Hm].
      rewrite Hm in Hstep. destruct st; [done|]. by destruct (is_closing_marker s0).
    + destruct (pushed_name s0) as [name|] eqn:Hp.
      * destruct (scope_visit_push m st s0 name Hp) as [_ ?]. congruence.
      * rewrite (scope_visit_ignored m st s0 Hp Hmk) in Hstep. done.
Qed.

(** C1. For the stream "namespace [N], opening marker at (1,10),
    function [f], opening marker at (2,5), closing marker at (3,1),
    closing marker at (4,1)" the builder returns exactly the map with
    [N] from (1,10) to (4,1) and [f] from (2,5) to (3,1). In general an
    opening marker records, for the name on top of the stack, the range
    that starts and ends at its position and leaves the stack alone; a
    closing marker sets the end of that name's range to its position and
    pops the stack. *)
Theorem make_scope_map_nested decls errs :
  make_scope_map dp (mk_sema nested_stream decls errs)
  = Some {[ "N" := mk_range (mk_pos 1 10) (mk_pos 4 1);
            "f" := mk_range (mk_pos 2 5) (mk_pos 3 1) ]}
  ∧ (∀ m name st n,
       scope_visit dp (m, name :: st) (open_marker n)
       = Some (<[name := mk_range (open_brace n) (open_brace n)]> m,
               name :: st))
  ∧ (∀ m name st n,
       scope_visit dp (m, name :: st) (close_marker n)
       = Some (<[name := mk_range (range_start (index_or_default dp m name))
                                  (close_brace n)]> m, st))
  ∧ (∀ m name r, m !! name = Some r → index_or_default dp m name = r).
Proof.
  split_and!.
  - vm_compute. reflexivity.
  - intros. apply scope_visit_open.
  - intros. apply scope_visit_close.
  - intros m name r Hr. unfold index_or_default. by rewrite Hr.
Qed.

(** C2, as amended. For every balanced event stream the builder returns
    a map whose keys are exactly the pushed names, one entry for each
    distinct name. If moreover the scope markers bring positions that
    never decrease along the stream and are not below the
    default-constructed position, every entry of the map has
    [end >= start] in the order by line, then column. *)
Theorem make_scope_map_balanced sm :
  balanced (symbols sm) →
  ∃ m,
    make_scope_map dp sm = Some m
    ∧ dom m = list_to_set (pushed_names (symbols sm))
    ∧ size m = length (remove_dups (pushed_names (symbols sm)))
    ∧ (markers_sorted dp (symbols sm) = true →
       map_Forall (λ _ r, cmp_le (range_start r) (range_end r)) m).
Proof.
  intros Hbal.
  destruct (scope_loop_frame "" (symbols sm) ∅ [] [] 0 Hbal)
    as (m & ext & Hrun & ->%nil_length_inv & _).
  simpl in Hrun. exists m.
  assert (dom m =@{gset string} list_to_set (pushed_names (symbols sm))) as Hdom.
  { apply scope_loop_dom in Hrun. set_solver. }
  split_and!.
  - unfold make_scope_map. by rewrite Hrun.
  - done.
  - rewrite <- (size_dom (D := gset string)), Hdom.
    rewrite <- (size_list_to_set (C := gset string) (remove_dups _))
      by apply NoDup_remove_dups.
    f_equal. apply set_eq. intros x.
    by rewrite !elem_of_list_to_set, elem_of_remove_dups.
  - intros Hsorted.
    destruct (scope_loop_ordered (symbols sm) ∅ [] dp m [])
      as [hi Hhi]; [apply cmp_le_refl|done|done|done|].
    intros name r Hr. by destruct (Hhi name r Hr).
Qed.

(** C3. An unbalanced stream is a violated precondition and not a
    reported error: the builder has no outcome other than its map, and
    its behaviour is undefined exactly when a scope marker, opening or
    closing, arrives while its stack is empty. Hence when more names were
    pushed than scopes closed before every scope marker, the access to
    the top of the stack and the pop never meet an empty stack, and the
    map is returned. *)
Theorem make_scope_map_underflow sm :
  (make_scope_map dp sm = None ↔
   ∃ pre s post m,
     symbols sm = pre ++ s :: post ∧ is_scope_marker s = true
     ∧ scope_loop dp (∅, []) pre = Some (m, []))
  ∧ (no_underflow (symbols sm) ↔ ∃ m, make_scope_map dp sm = Some m).
Proof.
  split.
  - unfold make_scope_map. rewrite fmap_None. apply scope_loop_underflow.
  - symmetry. apply make_scope_map_defined.
Qed.

(** C4, as amended. When a stream holds two sibling scopes pushed under
    the same name [x], one after the other, these being the only pushes of
    [x], and the events before each opening brace, inside each body and
    between the two scopes are balanced, and the events before the first
    scope and after the second one never meet an empty stack, the builder
    does not fail and the entry of [x] in the final map is the range of the
    second one: from its opening marker to its closing marker. *)
Theorem make_scope_map_siblings x pre d1 gap1 o1 body1 c1 mid
    d2 gap2 o2 body2 c2 post k0 k1 decls errs :
  pushed_name (declaration_active d1) = Some x →
  pushed_name (declaration_active d2) = Some x →
  x ∉ pushed_names (pre ++ gap1 ++ body1 ++ mid ++ gap2 ++ body2 ++ post) →
  balanced gap1 → balanced body1 → balanced mid →
  balanced gap2 → balanced body2 →
  scope_depth 0 pre = Some k0 → scope_depth k0 post = Some k1 →
  ∃ m,
    make_scope_map dp
      (mk_sema (pre ++ scope_events d1 gap1 o1 body1 c1 ++ mid
                ++ scope_events d2 gap2 o2 body2 c2 ++ post) decls errs)
    = Some m
    ∧ m !! x = Some (mk_range (open_brace o2) (close_brace c2)).
Proof.
  intros Hd1 Hd2 Hx Hg1 Hb1 Hmid Hg2 Hb2 Hpre Hpost.
  unfold pushed_names in Hx. rewrite !omap_app in Hx.
  rewrite !not_elem_of_app in Hx.
  destruct Hx as (Hxpre & Hxg1 & Hxb1 & Hxmid & Hxg2 & Hxb2 & Hxpost).
  destruct (scope_loop_frame x pre ∅ [] [] k0 Hpre)
    as (m0 & st0 & Hrun0 & Hl0 & Hx0).
  destruct (Hx0 Hxpre) as [Hst0 _]; [set_solver|].
  rewrite !app_nil_r in Hrun0. simpl in Hrun0.
  destruct (scope_loop_scope_events m0 st0 d1 gap1 o1 body1 c1 x)
    as (m1 & Hrun1 & _); [done..|].
  destruct (scope_loop_frame x mid m1 [] st0 0 Hmid)
    as (m2 & ext2 & Hrun2 & ->%nil_length_inv & _).
  simpl in Hrun2.
  destruct (scope_loop_scope_events m2 st0 d2 gap2 o2 body2 c2 x)
    as (m3 & Hrun3 & Hm3); [done..|].
  rewrite <- Hl0 in Hpost.
  destruct (scope_loop_frame x post m3 st0 [] k1 Hpost)
    as (m4 & st4 & Hrun4 & _ & Hx4).
  destruct (Hx4 Hxpost Hst0) as [_ Hm4].
  rewrite !app_nil_r in Hrun4.
  exists m4. split; [|by rewrite Hm4].
  unfold make_scope_map. cbn [symbols].
  rewrite scope_loop_app, Hrun0. cbn [mbind option_bind].
  rewrite scope_loop_app, Hrun1. cbn [mbind option_bind].
  rewrite scope_loop_app, Hrun2. cbn [mbind option_bind].
  rewrite scope_loop_app, Hrun3. cbn [mbind option_bind].
  by rewrite Hrun4.
Qed.

(** C10. A closing marker met while the name on top of the stack has
    no entry does not fail: indexing the map inserts a default range for
    that name, whose start is the default-constructed position, and only
    its end is set to the position of the marker. So, after two pushes,
    one brace pair and one more closing marker, the first name has an
    entry whose start no event of the stream brought. *)
Theorem make_scope_map_close_without_open decls errs :
  (∀ m name st n,
     m !! name = None →
     scope_visit dp (m, name :: st) (close_marker n)
     = Some (<[name := mk_range dp (close_brace n)]> m, st))
  ∧ make_scope_map dp (mk_sema double_push_stream decls errs)
    = Some {[ "a" := mk_range dp (mk_pos 4 1);
              "b" := mk_range (mk_pos 2 5) (mk_pos 3 1) ]}.
Proof.
  split.
  - intros m name st n Hnone. rewrite scope_visit_close.
    unfold index_or_default. by rewrite Hnone.
  - vm_compute. reflexivity.
Qed.

End ScopeMapFacts.

(** C2, as stated, fails: a balanced stream whose closing marker
    brings an earlier position than its opening marker gives an entry
    with [end < start]. *)
Lemma make_scope_map_reversed_range :
  balanced reversed_stream
  ∧ make_scope_map (mk_pos 1 1) (mk_sema reversed_stream [] [])
    = Some {[ "f" := mk_range (mk_pos 5 5) (mk_pos 1 1) ]}
  ∧ ¬ cmp_le (mk_pos 5 5) (mk_pos 1 1).
Proof.
  split_and!.
  - reflexivity.
  - vm_compute. reflexivity.
  - intros H. by apply H.
Qed.

Lemma make_scope_map_balanced_witness :
  ∃ m,
    make_scope_map (mk_pos 1 1) (mk_sema nested_stream [] []) = Some m
    ∧ dom m = list_to_set (pushed_names nested_stream)
    ∧ size m = length (remove_dups (pushed_names nested_stream))
    ∧ map_Forall (λ _ r, cmp_le (range_start r) (range_end r)) m.
Proof.
  destruct (make_scope_map_balanced (mk_pos 1 1) (mk_sema nested_stream [] []))
    as (m & Hm & Hdom & Hsize & Hle); [reflexivity|].
  exists m. split_and!; [done..|]. apply Hle. reflexivity.
Defined.

Lemma make_scope_map_siblings_witness :
  ∃ m,
    make_scope_map (mk_pos 1 1) (mk_sema sibling_stream [] []) = Some m
    ∧ m !! "x" = Some (mk_range (mk_pos 3 8) (mk_pos 4 1)).
Proof.
  apply (make_scope_map_siblings (mk_pos 1 1) "x" []
           (function_decl "x" (mk_pos 1 1)) [] (braces 1 8 2 1) [] (braces 1 8 2 1)
           [other_active]
           (function_decl "x" (mk_pos 3 1)) [] (braces 3 8 4 1) [] (braces 3 8 4 1)
           [] 0 0 [] []);
    try reflexivity.
  simpl. unfold pushed_names. simpl. apply not_elem_of_nil.
Defined.

(** C4, as stated, fails: when the body of the second sibling declares
    a function without braces, that name is on top of the stack at the
    closing brace, which ends the entry of the inner function and leaves
    the entry of [x] where the opening brace put it. *)
Lemma make_scope_map_sibling_inner_push :
  make_scope_map (mk_pos 1 1) (mk_sema sibling_inner_stream [] [])
  = Some {[ "x" := mk_range (mk_pos 3 8) (mk_pos 3 8);
            "g" := mk_range (mk_pos 1 1) (mk_pos 5 1) ]}
  ∧ mk_range (mk_pos 3 8) (mk_pos 3 8) ≠ mk_range (mk_pos 3 8) (mk_pos 5 1).
Proof. split; [vm_compute; reflexivity|discriminate]. Qed.

(** ** The symbol collector *)

Section Classification.

Implicit Types (decl : declaration_node) (s : declaration_sym).

Lemma get_declaration_kind_classify decl :
  get_declaration_kind decl = kind_text (classify decl).
Proof.
  unfold get_declaration_kind, classify. simpl.
  by destruct (is_function decl), (is_object decl), (is_type decl),
    (is_namespace decl).
Qed.

Lemma get_decl_name_enclosing decl :
  get_decl_name (get_parent decl) = enclosing_scope decl.
Proof.
  unfold get_decl_name, enclosing_scope.
  destruct (get_parent decl) as [p|]; simpl; [|done].
  by destruct (decl_identifier p).
Qed.

(** C5. The collector classifies an entry by the first query that
    answers yes, asked in the order is-function, is-object (the
    variable kind), is-type, is-namespace, and takes the unknown kind
    when none does; the enclosing scope is the text of the parent's
    identifier, and is empty when there is no parent or the parent has
    no identifier. *)
Theorem read_symbol_classifies :
  (∀ s tok,
     identifier s = Some tok →
     read_symbol s
     = Some (mk_diagnostic_symbol tok
               (kind_text (classify (declaration s)))
               (enclosing_scope (declaration s))
               (position (declaration s))))
  ∧ (∀ decl,
       classify decl =
         if is_function decl then Function
         else if is_object decl then Variable_
         else if is_type decl then Type_
         else if is_namespace decl then Namespace
         else Unknown)
  ∧ (∀ decl, get_declaration_kind decl = kind_text (classify decl))
  ∧ (∀ decl, get_parent decl = None → enclosing_scope decl = "")
  ∧ (∀ decl p,
       get_parent decl = Some p →
       enclosing_scope decl = default "" (decl_identifier p)).
Proof.
  split_and!.
  - intros s tok Htok. unfold read_symbol. rewrite Htok.
    by rewrite get_declaration_kind_classify, get_decl_name_enclosing.
  - intros decl. unfold classify. simpl.
    by destruct (is_function decl), (is_object decl), (is_type decl),
      (is_namespace decl).
  - apply get_declaration_kind_classify.
  - intros decl Hp. unfold enclosing_scope. by rewrite Hp.
  - intros decl p Hp. unfold enclosing_scope. by rewrite Hp.
Qed.

End Classification.

Section SetFacts.

Context {A : Type} `{SpaceshipLaws A}.

Implicit Types (x y : A) (l : list A).

Lemma elem_of_set_emplace x y l :
  y ∈ set_emplace x l ↔ y = x ∨ y ∈ l.
Proof.
  induction l as [|z l IH]; simpl.
  - rewrite list_elem_of_singleton. set_solver.
  - destruct (spaceship x z) eqn:E.
    + apply spaceship_eq in E as ->. set_solver.
    + set_solver.
    + rewrite !elem_of_cons, IH. tauto.
Qed.

Lemma set_emplace_sorted x l :
  StronglySorted cmp_lt l → StronglySorted cmp_lt (set_emplace x l).
Proof.
  induction 1 as [|z l Hs IH Hz]; simpl.
  - repeat constructor.
  - destruct (spaceship x z) eqn:E.
    + by constructor.
    + constructor; [by constructor|]. constructor; [done|].
      eapply Forall_impl; [exact Hz|]. intros y Hy.
      by apply (cmp_lt_trans x z y).
    + constructor; [done|]. apply Forall_forall. intros y Hy.
      apply elem_of_set_emplace in Hy as [->|Hy].
      * by apply spaceship_gt_lt.
      * rewrite Forall_forall in Hz. by apply Hz.
Qed.

Lemma sorted_NoDup l : StronglySorted cmp_lt l → NoDup l.
Proof.
  induction 1 as [|z l Hs IH Hz]; constructor; [|done].
  intros Hin. rewrite Forall_forall in Hz.
  by apply (cmp_lt_irrefl z), Hz.
Qed.

(** The order of pairs, spelled out. *)
Lemma cmp_lt_pair {B} `{SpaceshipLaws B} (a1 b1 : A) (a2 b2 : B) :
  cmp_lt (a1, a2) (b1, b2) ↔ cmp_lt a1 b1 ∨ (a1 = b1 ∧ cmp_lt a2 b2).
Proof.
  unfold cmp_lt. unfold spaceship at 1, prod_spaceship. simpl.
  destruct (spaceship a1 b1) eqn:E; simpl.
  - apply spaceship_eq in E. naive_solver.
  - naive_solver.
  - split; [done|]. intros [?|[-> _]]; [done|].
    by rewrite spaceship_refl in E.
Qed.

End SetFacts.

Section Collector.

Context (dp : source_position).

Lemma collect_symbols_spec l :
  ∀ acc r,
    collect_symbols acc l = Some r →
    StronglySorted cmp_lt acc →
    StronglySorted cmp_lt r
    ∧ ∀ x, x ∈ r ↔ x ∈ acc ∨ ∃ e, e ∈ l ∧ read_symbol (sym e) = Some x.
Proof.
  induction l as [|d l IH]; intros acc r; simpl.
  - intros [= <-] Hs. split; [done|]. intros x. set_solver.
  - destruct (read_symbol (sym d)) as [y|] eqn:Hy; [|done].
    intros Hr Hs. apply IH in Hr as [Hsr Hin]; [|by apply set_emplace_sorted].
    split; [done|]. intros x. rewrite Hin, elem_of_set_emplace. split.
    + intros [[->|?]|(e & ? & ?)]; [right; exists d|by left|right; exists e];
        set_solver.
    + intros [?|(e & [->|?]%elem_of_cons & He)]; [by left; right| |by eauto].
      left; left. congruence.
Qed.

Lemma collect_symbols_defined l :
  ∀ acc,
    is_Some (collect_symbols acc l)
    ↔ Forall (λ d, is_Some (identifier (sym d))) l.
Proof.
  induction l as [|d l IH]; intros acc; simpl.
  - split; [by constructor|by eauto].
  - rewrite Forall_cons. unfold read_symbol.
    destruct (identifier (sym d)) as [tok|].
    + rewrite IH. naive_solver.
    + split; [by intros [??]|by intros [[??] _]].
Qed.

Lemma get_diagnostics_defined sm :
  is_Some (get_diagnostics dp sm) ↔ sema_defined sm.
Proof.
  unfold get_diagnostics, sema_defined.
  rewrite <- (make_scope_map_defined dp), <- (collect_symbols_defined _ []).
  destruct (make_scope_map dp sm), (collect_symbols [] (declaration_of sm));
    split; try done; by intros [[??] [??]]; eauto.
Qed.

(** The order of the symbol set, spelled out on the four members. *)
Lemma symbol_lt_lex (a b : diagnostic_symbol_t) :
  cmp_lt a b ↔
    cmp_lt (ds_symbol a) (ds_symbol b)
    ∨ (ds_symbol a = ds_symbol b
       ∧ (cmp_lt (ds_kind a) (ds_kind b)
          ∨ (ds_kind a = ds_kind b
             ∧ (cmp_lt (ds_scope a) (ds_scope b)
                ∨ (ds_scope a = ds_scope b
                   ∧ cmp_lt (ds_position a) (ds_position b)))))).
Proof.
  change (cmp_lt a b) with (cmp_lt (symbol_key a) (symbol_key b)).
  unfold symbol_key. by rewrite !cmp_lt_pair.
Qed.

(** C6. In every report the symbols are strictly increasing in the
    order that compares name, then kind, then scope, then position, and
    this is the order in which they are visited and written. So no two
    of them agree on all four members; the set holds exactly the symbols
    read from the table, those equal on the four members once, and two
    that share a name and differ in kind, scope or position both. *)
Theorem get_diagnostics_symbols sm :
  sema_defined sm →
  ∃ d,
    get_diagnostics dp sm = Some d
    ∧ StronglySorted cmp_lt (diag_symbols d)
    ∧ NoDup (diag_symbols d)
    ∧ (∀ x, x ∈ diag_symbols d ↔
            ∃ e, e ∈ declaration_of sm ∧ read_symbol (sym e) = Some x)
    ∧ (∀ a b : diagnostic_symbol_t,
         cmp_lt a b ↔
           cmp_lt (ds_symbol a) (ds_symbol b)
           ∨ (ds_symbol a = ds_symbol b
              ∧ (cmp_lt (ds_kind a) (ds_kind b)
                 ∨ (ds_kind a = ds_kind b
                    ∧ (cmp_lt (ds_scope a) (ds_scope b)
                       ∨ (ds_scope a = ds_scope b
                          ∧ cmp_lt (ds_position a) (ds_position b))))))).
Proof.
  intros [d Hd]%get_diagnostics_defined. exists d. split; [done|].
  unfold get_diagnostics in Hd.
  destruct (make_scope_map dp sm) as [scopes|]; [|done].
  destruct (collect_symbols [] (declaration_of sm)) as [syms|] eqn:Hc; [|done].
  injection Hd as <-. simpl.
  apply collect_symbols_spec in Hc as [Hs Hin]; [|constructor].
  split_and!.
  - done.
  - by apply sorted_NoDup.
  - intros x. rewrite Hin. set_solver.
  - apply symbol_lt_lex.
Qed.

(** C8. The errors of the report are the analyzer's list itself: the
    same entries, in the same order, none dropped, merged or moved, each
    with its symbol, message and position. *)
Theorem get_diagnostics_errors sm :
  sema_defined sm →
  ∃ d,
    get_diagnostics dp sm = Some d
    ∧ diag_errors d = errors sm
    ∧ ∀ i, diag_errors d !! i = errors sm !! i.
Proof.
  intros [d Hd]%get_diagnostics_defined. exists d. split; [done|].
  unfold get_diagnostics in Hd.
  destruct (make_scope_map dp sm) as [scopes|]; [|done].
  destruct (collect_symbols [] (declaration_of sm)) as [syms|]; [|done].
  by injection Hd as <-.
Qed.

End Collector.

Lemma get_diagnostics_symbols_witness :
  ∃ d,
    get_diagnostics (mk_pos 1 1) sample_sema = Some d
    ∧ StronglySorted cmp_lt (diag_symbols d)
    ∧ NoDup (diag_symbols d)
    ∧ length (diag_symbols d) = 3%nat.
Proof.
  destruct (get_diagnostics_symbols (mk_pos 1 1) sample_sema)
    as (d & Hd & Hs & Hnd & _).
  { split; [|by repeat constructor].
    apply (make_scope_map_defined (mk_pos 1 1)). vm_compute. eauto. }
  exists d. split_and!; [done..|].
  vm_compute in Hd. by injection Hd as <-.
Defined.

Lemma get_diagnostics_errors_witness :
  ∃ d,
    get_diagnostics (mk_pos 1 1) sample_sema = Some d
    ∧ diag_errors d = errors sample_sema.
Proof.
  destruct (get_diagnostics_errors (mk_pos 1 1) sample_sema)
    as (d & Hd & He & _).
  { split; [|by repeat constructor].
    apply (make_scope_map_defined (mk_pos 1 1)). vm_compute. eauto. }
  by exists d.
Defined.

(** ** The serializer *)

Section Strings.

Implicit Types (a b c s w : string).

Lemma append_cons x a b : String x a +:+ b = String x (a +:+ b).
Proof. reflexivity. Qed.

Lemma append_assoc a b c : (a +:+ b) +:+ c = a +:+ (b +:+ c).
Proof.
  induction a as [|x a IH]; [done|]. by rewrite !append_cons, IH.
Qed.

Lemma append_nil_r a : a +:+ "" = a.
Proof. induction a as [|x a IH]; [done|]. by rewrite append_cons, IH. Qed.

Lemma string_bind_app f a b :
  string_bind f (a +:+ b) = string_bind f a +:+ string_bind f b.
Proof.
  induction a as [|x a IH]; simpl; [done|].
  by rewrite IH, append_assoc.
Qed.

Lemma string_bind_bind f g s :
  string_bind g (string_bind f s)
  = string_bind (λ x, string_bind g (f x)) s.
Proof.
  induction s as [|x s IH]; simpl; [done|].
  by rewrite string_bind_app, IH.
Qed.

Lemma string_bind_ext f g s :
  (∀ x, f x = g x) → string_bind f s = string_bind g s.
Proof. intros Hfg. induction s as [|x s IH]; simpl; [done|]. by rewrite Hfg, IH. Qed.

(** A replacement of a one-character pattern works character by
    character. *)
Lemma replace_all_char x w s :
  replace_all s (lit1 x) w = string_bind (subst_char x w) s.
Proof.
  unfold replace_all, lit1.
  induction s as [|y s IH]; [done|].
  cbn [replace_all_from string_bind String.prefix String.length Nat.sub].
  unfold subst_char at 1.
  destruct (ascii_dec x y) as [->|Hne].
  - rewrite decide_True by done. rewrite IH. by destruct s.
  - rewrite decide_False by done. by rewrite IH.
Qed.

Lemma sanitize_for_json_passes s :
  sanitize_for_json s = apply_passes escape_passes s.
Proof. unfold sanitize_for_json. by rewrite !replace_all_char. Qed.

Lemma apply_passes_escaped s : apply_passes escape_passes s = escaped s.
Proof.
  unfold apply_passes, escape_passes, escaped. simpl.
  rewrite !string_bind_bind. apply string_bind_ext.
  intros [[] [] [] [] [] [] [] []]; vm_compute; reflexivity.
Qed.

(** The order of the replacements matters: were the double quote
    replaced before the backslash, the backslash of its escape would be
    doubled. *)
Remark backslash_goes_first :
  apply_passes [(c_dquote, lit2 c_dquote); (c_backslash, lit2 c_backslash)] dq
  = String c_backslash (lit2 c_dquote)
  ∧ apply_passes [(c_backslash, lit2 c_backslash); (c_dquote, lit2 c_dquote)] dq
    = lit2 c_dquote.
Proof. split; reflexivity. Qed.

End Strings.

Section Printing.

Implicit Types (o : ostream) (d : diagnostic_symbol_t) (e : error_entry).
Implicit Types (sc : string * diagnostic_scope_range_t).

(** Both sides are the same characters once the appends are nested to
    the right. *)
Ltac same_text :=
  unfold put, put_int, member, position_members, quoted;
  rewrite ?append_assoc; reflexivity.

Lemma print_symbol_record o d : print_symbol o d = o +:+ symbol_record d.
Proof. unfold print_symbol, symbol_record. same_text. Qed.

Lemma print_error_record o e : print_error o e = o +:+ error_record e.
Proof.
  unfold print_error, error_record.
  rewrite sanitize_for_json_passes, apply_passes_escaped. same_text.
Qed.

Lemma print_scope_record o sc : print_scope o sc = o +:+ scope_record sc.
Proof. unfold print_scope, scope_record. same_text. Qed.

(** A loop that writes one record per element writes their
    concatenation. *)
Lemma foldl_records {A} (step : ostream → A → ostream) (rec : A → string) :
  (∀ o x, step o x = o +:+ rec x) →
  ∀ l o, foldl step o l = o +:+ concat_map rec l.
Proof.
  intros Hstep l. induction l as [|x l IH]; intros o; simpl.
  - by rewrite append_nil_r.
  - by rewrite IH, Hstep, append_assoc.
Qed.

Lemma print_diagnostics_document o (r : diagnostics_t) :
  print_diagnostics o r = o +:+ document r.
Proof.
  unfold print_diagnostics, document.
  rewrite (foldl_records print_symbol symbol_record print_symbol_record).
  rewrite (foldl_records print_error error_record print_error_record).
  rewrite (foldl_records print_scope scope_record print_scope_record).
  same_text.
Qed.

Lemma contains_unfold needle hay :
  contains needle hay
  = String.prefix needle hay
    || match hay with
       | EmptyString => false
       | String _ hay' => contains needle hay'
       end.
Proof. by destruct hay. Qed.

Lemma prefix_append (a b : string) : String.prefix a (a +:+ b) = true.
Proof.
  induction a as [|x a IH]; [by destruct b|].
  rewrite append_cons. simpl. by destruct (ascii_dec x x).
Qed.

Lemma contains_here (needle rest : string) :
  contains needle (needle +:+ rest) = true.
Proof. by rewrite contains_unfold, prefix_append. Qed.

Lemma contains_skip (needle a rest : string) :
  contains needle rest = true → contains needle (a +:+ rest) = true.
Proof.
  intros Hrest. induction a as [|x a IH]; [done|].
  rewrite append_cons, contains_unfold, IH. apply orb_true_r.
Qed.

Lemma has_member_here (key value rest : string) :
  has_member key (member key value +:+ rest) = true.
Proof.
  unfold has_member, member.
  change (": " +:+ value) with (":" +:+ " " +:+ value).
  rewrite <- (append_assoc (quoted key) ":"), append_assoc.
  apply contains_here.
Qed.

Lemma has_member_skip (key a rest : string) :
  has_member key rest = true → has_member key (a +:+ rest) = true.
Proof. apply contains_skip. Qed.

(** Finds the member in a text that is a chain of appends. *)
Ltac find_member :=
  rewrite ?append_assoc;
  repeat first [ apply has_member_here | apply has_member_skip ].

Lemma symbol_record_members d :
  Forall (λ key, has_member key (symbol_record d) = true)
         ["symbol"; "scope"; "kind"; "lineno"; "colno"].
Proof.
  unfold symbol_record, position_members.
  repeat constructor; find_member.
Qed.

Lemma error_record_members e :
  Forall (λ key, has_member key (error_record e) = true)
         ["symbol"; "lineno"; "colno"; "msg"].
Proof.
  unfold error_record, position_members.
  repeat constructor; find_member.
Qed.

Lemma scope_record_members sc :
  Forall (λ key, has_member key (scope_record sc) = true)
         ["start"; "end"; "lineno"; "colno"].
Proof.
  unfold scope_record, position_members.
  repeat constructor; [find_member..| |]; unfold member at 1; find_member.
Qed.

(** C7. The message of an error is escaped by seven replacements
    made one after the other in this order: backslash, double quote,
    backspace, form feed, newline, carriage return, tab, each becoming a
    backslash followed by the backslash itself, the quote itself, [b],
    [f], [n], [r], [t]. The outcome is that each of these seven
    characters is escaped once and every other character is written as it
    is; the message [a"b] becomes [a\"b]. Only the message of an error
    goes through the escaping: the symbol of an error, the name and the
    scope of a symbol and the name of a scope are written as they are. *)
Theorem sanitize_for_json_escapes :
  (∀ s, sanitize_for_json s = apply_passes escape_passes s)
  ∧ (∀ s, sanitize_for_json s = escaped s)
  ∧ (∀ x : ascii,
       x ∉ [c_backslash; c_dquote; c_backspace; c_formfeed; c_newline;
            c_return; c_tab] →
       escape_char x = lit1 x)
  ∧ sanitize_for_json ("a" +:+ dq +:+ "b") = "a" +:+ lit2 c_dquote +:+ "b"
  ∧ (∀ o e,
       print_error o e
       = o +:+ "{" +:+ member "symbol" (quoted (err_symbol e)) +:+ ", "
           +:+ position_members (err_where e) +:+ ", "
           +:+ member "msg" (quoted (sanitize_for_json (err_msg e))) +:+ "},")
  ∧ (∀ o d,
       print_symbol o d
       = o +:+ "{ " +:+ member "symbol" (quoted (ds_symbol d)) +:+ ", "
           +:+ member "scope" (quoted (ds_scope d)) +:+ ", "
           +:+ member "kind" (quoted (ds_kind d)) +:+ ", "
           +:+ position_members (ds_position d) +:+ "},")
  ∧ (∀ o sc, ∃ rest, print_scope o sc = o +:+ quoted sc.1 +:+ rest).
Proof.
  split_and!.
  - apply sanitize_for_json_passes.
  - intros s. by rewrite sanitize_for_json_passes, apply_passes_escaped.
  - intros x Hx. unfold escape_char.
    repeat (case_decide; [subst; exfalso; apply Hx; set_solver|]). done.
  - reflexivity.
  - intros o e. unfold print_error. same_text.
  - intros o d. apply print_symbol_record.
  - intros o sc. eexists. rewrite print_scope_record. unfold scope_record.
    reflexivity.
Qed.

(** C9, as amended. The document has three sections, in the order
    [symbols], [errors], [scopes], under these names. The scopes section
    is keyed by name, one member for each binding of the scope map, its
    value made of [start] and [end], each a pair of [lineno] and [colno].
    Each entry of the symbols section has the members [symbol], [scope],
    [kind], [lineno], [colno]; each entry of the errors section has the
    members [symbol], [lineno], [colno], [msg]. *)
Theorem print_diagnostics_sections :
  (∀ o r,
     print_diagnostics o r
     = o +:+ "{"
         +:+ member "symbols"
               ("[" +:+ concat_map symbol_record (diag_symbols r) +:+ "]")
         +:+ ", "
         +:+ member "errors"
               ("[" +:+ concat_map error_record (diag_errors r) +:+ "]")
         +:+ ", "
         +:+ member "scopes"
               ("{" +:+ concat_map scope_record (map_to_list (scope_map r))
                +:+ "}")
         +:+ "}")
  ∧ (∀ d, symbol_record d
          = "{ " +:+ member "symbol" (quoted (ds_symbol d)) +:+ ", "
            +:+ member "scope" (quoted (ds_scope d)) +:+ ", "
            +:+ member "kind" (quoted (ds_kind d)) +:+ ", "
            +:+ member "lineno" (pretty (lineno (ds_position d))) +:+ ", "
            +:+ member "colno" (pretty (colno (ds_position d))) +:+ "},")
  ∧ (∀ e, error_record e
          = "{" +:+ member "symbol" (quoted (err_symbol e)) +:+ ", "
            +:+ member "lineno" (pretty (lineno (err_where e))) +:+ ", "
            +:+ member "colno" (pretty (colno (err_where e))) +:+ ", "
            +:+ member "msg" (quoted (escaped (err_msg e))) +:+ "},")
  ∧ (∀ name rg,
       scope_record (name, rg)
       = quoted name +:+ ":{"
         +:+ member "start"
               ("{ " +:+ member "lineno" (pretty (lineno (range_start rg)))
                +:+ ", " +:+ member "colno" (pretty (colno (range_start rg)))
                +:+ "}")
         +:+ ","
         +:+ member "end"
               ("{ " +:+ member "lineno" (pretty (lineno (range_end rg)))
                +:+ ", " +:+ member "colno" (pretty (colno (range_end rg)))
                +:+ "}")
         +:+ "},")
  ∧ (∀ r name rg,
       (name, rg) ∈ map_to_list (scope_map r) ↔ scope_map r !! name = Some rg)
  ∧ (∀ d, Forall (λ key, has_member key (symbol_record d) = true)
                 ["symbol"; "scope"; "kind"; "lineno"; "colno"])
  ∧ (∀ e, Forall (λ key, has_member key (error_record e) = true)
                 ["symbol"; "lineno"; "colno"; "msg"])
  ∧ (∀ sc, Forall (λ key, has_member key (scope_record sc) = true)
                  ["start"; "end"; "lineno"; "colno"]).
Proof.
  split_and!.
  - intros o r. apply print_diagnostics_document.
  - intros d. unfold symbol_record. same_text.
  - intros e. unfold error_record. same_text.
  - intros name rg. unfold scope_record. same_text.
  - intros r name rg. apply elem_of_map_to_list.
  - apply symbol_record_members.
  - apply error_record_members.
  - apply scope_record_members.
Qed.

End Printing.

(** C9, as stated, fails: in the document of a report with one symbol,
    one error and one scope no member is named [line] or [col]; the
    positions are written under [lineno] and [colno]. *)
Lemma sample_document_position_members :
  Forall (λ key, has_member key (print_diagnostics "" sample_report) = false)
         ["line"; "col"]
  ∧ Forall (λ key, has_member key (print_diagnostics "" sample_report) = true)
           ["lineno"; "colno"]
  ∧ Forall (λ d, has_member "line" (symbol_record d) = false
                 ∧ has_member "col" (symbol_record d) = false)
           (diag_symbols sample_report)
  ∧ Forall (λ e, has_member "line" (error_record e) = false
                 ∧ has_member "col" (error_record e) = false)
           (diag_errors sample_report).
Proof. repeat split; repeat constructor; vm_compute; reflexivity. Qed.

(** * Further properties *)

(** ** Escaping *)

Section EscapingFacts.

Implicit Types (a b s t : string) (c d : ascii).

Lemma sanitize_for_json_escaped s : sanitize_for_json s = escaped s.
Proof. by rewrite sanitize_for_json_passes, apply_passes_escaped. Qed.

(** X1. Escaping a text made of two parts is escaping each part: no escape
    is formed or broken where the parts meet. *)
Theorem sanitize_for_json_app a b :
  sanitize_for_json (a +:+ b) = sanitize_for_json a +:+ sanitize_for_json b.
Proof. rewrite !sanitize_for_json_escaped. apply string_bind_app. Qed.

Lemma escape_char_cases c :
  (needs_escape c = false ∧ c ≠ c_backslash ∧ escape_char c = lit1 c)
  ∨ (needs_escape c = true
     ∧ ∃ d, escape_char c = lit2 d ∧ escape_letter d = true
            ∧ unescape_char d = c).
Proof.
  destruct c as [[] [] [] [] [] [] [] []];
    first [ left; split_and!; [reflexivity|discriminate|reflexivity]
          | right; split; [reflexivity|];
            eexists; split_and!; reflexivity ].
Qed.

Lemma append_lit1 c s : lit1 c +:+ s = String c s.
Proof. reflexivity. Qed.

Lemma append_lit2 d s : lit2 d +:+ s = String c_backslash (String d s).
Proof. reflexivity. Qed.

Lemma unescape_plain c s :
  c ≠ c_backslash → unescape (String c s) = String c (unescape s).
Proof. intros Hc. simpl. by rewrite decide_False. Qed.

Lemma unescape_pair d s :
  unescape (String c_backslash (String d s)) = String (unescape_char d) (unescape s).
Proof. reflexivity. Qed.

(** X2. The escaping loses nothing: reading the escapes back gives the
    message, so two different messages are never written alike. *)
Theorem sanitize_for_json_inj :
  (∀ s, unescape (sanitize_for_json s) = s)
  ∧ (∀ s t, sanitize_for_json s = sanitize_for_json t → s = t).
Proof.
  assert (∀ s, unescape (sanitize_for_json s) = s) as Hback.
  { intros s. rewrite sanitize_for_json_escaped. unfold escaped.
    induction s as [|c s IH]; [done|]. cbn [string_bind].
    destruct (escape_char_cases c) as [(_ & Hc & ->)|(_ & d & -> & _ & Hd)].
    - by rewrite append_lit1, unescape_plain, IH.
    - by rewrite append_lit2, unescape_pair, Hd, IH. }
  split; [done|].
  intros s t Heq. by rewrite <- (Hback s), <- (Hback t), Heq.
Qed.

(** X3. What is written for a message is well escaped: a backslash is
    always followed by a backslash, a double quote or one of the letters
    [b], [f], [n], [r], [t], and outside these pairs
    there is no double quote and none of the five control characters. *)
Theorem sanitize_for_json_well_escaped s :
  well_escaped (sanitize_for_json s) = true.
Proof.
  rewrite sanitize_for_json_escaped. unfold escaped.
  induction s as [|c s IH]; [done|]. cbn [string_bind].
  destruct (escape_char_cases c) as [(Hn & Hc & ->)|(_ & d & -> & Hd & _)].
  - rewrite append_lit1. cbn [well_escaped].
    by rewrite decide_False, Hn, IH.
  - rewrite append_lit2. cbn [well_escaped].
    rewrite decide_True by done. by rewrite Hd, IH.
Qed.

Lemma string_length_app a b :
  String.length (a +:+ b) = (String.length a + String.length b)%nat.
Proof.
  induction a as [|c a IH]; [done|]. rewrite append_cons. simpl. by rewrite IH.
Qed.

Lemma sanitize_for_json_length s :
  String.length (sanitize_for_json s)
  = (String.length s + string_count needs_escape s)%nat.
Proof.
  rewrite sanitize_for_json_escaped. unfold escaped.
  induction s as [|c s IH]; [done|]. cbn [string_bind string_count].
  rewrite string_length_app, IH.
  destruct (escape_char_cases c) as [(-> & _ & ->)|(-> & d & -> & _)];
    simpl; lia.
Qed.

(** X4. A message comes out unchanged exactly when it has none of the seven
    characters; otherwise it comes out longer, by one character for each
    of them. *)
Theorem sanitize_for_json_fixpoint s :
  (sanitize_for_json s = s ↔ string_count needs_escape s = 0%nat)
  ∧ String.length (sanitize_for_json s)
    = (String.length s + string_count needs_escape s)%nat.
Proof.
  split; [|apply sanitize_for_json_length]. split.
  - intros Heq. pose proof (sanitize_for_json_length s) as Hlen.
    rewrite Heq in Hlen. lia.
  - rewrite sanitize_for_json_escaped. unfold escaped.
    induction s as [|c s IH]; [done|]. cbn [string_bind string_count].
    destruct (escape_char_cases c) as [(-> & _ & ->)|(-> & _)]; [|done].
    intros Hs. by rewrite append_lit1, IH.
Qed.

End EscapingFacts.

(** ** More on the scope-map builder *)

Section ScopeMapMore.

Context (dp : source_position).

Implicit Types (m : diagnostic_scope_map) (st : list string).
Implicit Types (evs : list symbol) (s : symbol).

#[local] Arguments scope_visit : simpl never.

(** Every event is a push, an opening marker, a closing marker, or
    nothing to the builder. *)
Lemma symbol_cases s :
  (∃ name, pushed_name s = Some name)
  ∨ (∃ n, s = open_marker n)
  ∨ (∃ n, s = close_marker n)
  ∨ (pushed_name s = None ∧ is_scope_marker s = false).
Proof.
  destruct s as [d|[b n k]|]; simpl.
  - destruct (is_function _ || is_namespace _); [|by repeat right].
    destruct (identifier d); [left; eauto|by repeat right].
  - destruct k; [|by repeat right].
    destruct b; [right; left|right; right; left]; by exists n.
  - by repeat right.
Qed.

Lemma acts_on_false s :
  acts_on s = false → pushed_name s = None ∧ is_scope_marker s = false.
Proof.
  unfold acts_on. intros [Hp Hm]%orb_false_iff. split; [|done].
  destruct (pushed_name s) as [name|] eqn:E; [|done].
  by rewrite (is_push_Some s name E) in Hp.
Qed.

Lemma scope_loop_filter evs :
  ∀ σ, scope_loop dp σ (List.filter acts_on evs) = scope_loop dp σ evs.
Proof.
  induction evs as [|s evs IH]; intros [m st]; [done|]. simpl.
  destruct (acts_on s) eqn:Ha; simpl.
  - destruct (scope_visit dp (m, st) s); [apply IH|done].
  - destruct (acts_on_false s Ha) as [Hp Hm].
    by rewrite (scope_visit_ignored dp m st s Hp Hm).
Qed.

(** X5. The events that neither push a name nor mark a scope (declarations
    of objects and types, anonymous declarations, compound statements
    that are not scopes, the other alternatives) can be taken out of the
    stream: the map, or the undefined behaviour, is the same. *)
Theorem make_scope_map_acts_on evs decls errs decls' errs' :
  make_scope_map dp (mk_sema (List.filter acts_on evs) decls errs)
  = make_scope_map dp (mk_sema evs decls' errs').
Proof. unfold make_scope_map. simpl. by rewrite scope_loop_filter. Qed.

Lemma scope_loop_provenance evs :
  ∀ m st m' st',
    scope_loop dp (m, st) evs = Some (m', st') →
    ∀ name r,
      m' !! name = Some r →
      m !! name = Some r
      ∨ ((name ∈ st ∨ name ∈ pushed_names evs)
         ∧ (range_start r = dp
            ∨ (∃ r0, m !! name = Some r0 ∧ range_start r0 = range_start r)
            ∨ ∃ n, open_marker n ∈ evs ∧ range_start r = open_brace n)
         ∧ ∃ s, s ∈ evs ∧ marker_position s = Some (range_end r)).
Proof.
  induction evs as [|s evs IH]; intros m st m' st' Hrun name r Hr.
  { injection Hrun as <- <-. by left. }
  simpl in Hrun.
  destruct (scope_visit dp (m, st) s) as [[m1 st1]|] eqn:Hstep; [|done].
  specialize (IH m1 st1 m' st' Hrun name r Hr).
  assert (∀ x, x ∈ pushed_names evs → x ∈ pushed_names (s :: evs)) as Hsub.
  { intros x. unfold pushed_names. simpl. destruct (pushed_name s); set_solver. }
  destruct (symbol_cases s) as [[n0 Hp]|[[n ->]|[[n ->]|[Hp Hm]]]].
  - destruct (scope_visit_push dp m st s n0 Hp) as [_ Hs].
    rewrite Hs in Hstep. injection Hstep as <- <-.
    destruct IH as [?|(Hin & Hst & s' & Hs' & He)]; [by left|right].
    split_and!; [|set_solver|set_solver].
    destruct Hin as [[->|?]%elem_of_cons|?]; [|by left|by right; apply Hsub].
    right. unfold pushed_names. simpl. rewrite Hp. set_solver.
  - destruct st as [|top rest]; [done|].
    rewrite scope_visit_open in Hstep. injection Hstep as <- <-.
    assert (name = top ∧ (∃ r1, <[top := mk_range (open_brace n) (open_brace n)]> m !! name = Some r1
                               ∧ range_start r1 = range_start r)
            → ∃ n', open_marker n' ∈ open_marker n :: evs
                    ∧ range_start r = open_brace n') as Htop.
    { intros [-> (r1 & Hr1 & <-)]. rewrite lookup_insert_eq in Hr1.
      injection Hr1 as <-. exists n. set_solver. }
    destruct IH as [Hm1|(Hin & Hst & s' & Hs' & He)].
    + destruct (decide (name = top)) as [->|Hne].
      * rewrite lookup_insert_eq in Hm1. injection Hm1 as <-. right.
        split_and!; [set_solver| |].
        -- right. right. exists n. set_solver.
        -- exists (open_marker n). set_solver.
      * rewrite lookup_insert_ne in Hm1 by done. by left.
    + right. split_and!; [set_solver| |set_solver].
      destruct Hst as [?|[(r1 & Hr1 & Hs1)|(n' & ? & ?)]]; [by left| |].
      * destruct (decide (name = top)) as [->|Hne].
        -- right. right. apply Htop. eauto.
        -- rewrite lookup_insert_ne in Hr1 by done. right. left. eauto.
      * right. right. exists n'. set_solver.
  - destruct st as [|top rest]; [done|].
    rewrite scope_visit_close in Hstep. injection Hstep as <- <-.
    assert (∀ r1, r1 = mk_range (range_start (index_or_default dp m top)) (close_brace n) →
                  range_start r1 = dp
                  ∨ ∃ r0, m !! top = Some r0 ∧ range_start r0 = range_start r1) as Htop.
    { intros r1 ->. unfold index_or_default. simpl.
      destruct (m !! top) as [r0|]; [right; eauto|by left]. }
    destruct IH as [Hm1|(Hin & Hst & s' & Hs' & He)].
    + destruct (decide (name = top)) as [->|Hne].
      * rewrite lookup_insert_eq in Hm1. injection Hm1 as <-. right.
        split_and!; [set_solver| |].
        -- destruct (Htop _ eq_refl) as [?|?]; [by left|by right; left].
        -- exists (close_marker n). set_solver.
      * rewrite lookup_insert_ne in Hm1 by done. by left.
    + right. split_and!; [set_solver| |set_solver].
      destruct Hst as [?|[(r1 & Hr1 & Hs1)|(n' & ? & ?)]]; [by left| |].
      * destruct (decide (name = top)) as [->|Hne].
        -- rewrite lookup_insert_eq in Hr1. injection Hr1 as <-.
           rewrite <- Hs1.
           destruct (Htop _ eq_refl) as [?|?]; [by left|by right; left].
        -- rewrite lookup_insert_ne in Hr1 by done. right. left. eauto.
      * right. right. exists n'. set_solver.
  - rewrite (scope_visit_ignored dp m st s Hp Hm) in Hstep.
    injection Hstep as <- <-.
    destruct IH as [?|(Hin & Hst & s' & Hs' & He)]; [by left|right].
    split_and!; [set_solver| |set_solver].
    destruct Hst as [?|[?|(n' & ? & ?)]]; [by left|by right; left|].
    right. right. exists n'. set_solver.
Qed.

(** X6. Nothing in the map is made up, the default position apart: every key
    is a name pushed in the stream, every start is the position of an
    opening marker of the stream or the default-constructed position, and
    every end is the position of a scope marker of the stream. *)
Theorem make_scope_map_provenance sm m name r :
  make_scope_map dp sm = Some m →
  m !! name = Some r →
  name ∈ pushed_names (symbols sm)
  ∧ (range_start r = dp
     ∨ ∃ n, open_marker n ∈ symbols sm ∧ range_start r = open_brace n)
  ∧ ∃ s, s ∈ symbols sm ∧ marker_position s = Some (range_end r).
Proof.
  unfold make_scope_map. intros Hm Hr.
  destruct (scope_loop dp (∅, []) (symbols sm)) as [[m' st']|] eqn:Hrun; [|done].
  injection Hm as ->.
  destruct (scope_loop_provenance _ _ _ _ _ Hrun name r Hr)
    as [?|(Hin & Hst & He)]; [done|].
  split_and!; [set_solver| |done].
  destruct Hst as [?|[(r0 & ? & _)|?]]; [by left|done|by right].
Qed.

(** X7. A plain block inside a function body takes the function's place: its
    braces are scope markers too, so its opening brace restarts the entry
    of the function and its closing brace ends it and pops the name. The
    closing brace of the function then meets the stack of the enclosing
    scopes; with none open, the behaviour is undefined. *)
Theorem make_scope_map_inner_block d f o1 o2 c2 c1 pre post decls errs :
  pushed_name (declaration_active d) = Some f →
  balanced pre →
  (∀ m st,
     scope_loop dp (m, st)
       [declaration_active d; open_marker o1; open_marker o2; close_marker c2]
     = Some (<[f := mk_range (open_brace o2) (close_brace c2)]> m, st))
  ∧ make_scope_map dp
      (mk_sema (pre ++ [declaration_active d; open_marker o1; open_marker o2;
                        close_marker c2; close_marker c1] ++ post) decls errs)
    = None.
Proof.
  intros Hd Hpre.
  assert (∀ m st,
     scope_loop dp (m, st)
       [declaration_active d; open_marker o1; open_marker o2; close_marker c2]
     = Some (<[f := mk_range (open_brace o2) (close_brace c2)]> m, st)) as Hblock.
  { intros m st. cbn [scope_loop].
    destruct (scope_visit_push dp m st _ f Hd) as [_ ->].
    rewrite !scope_visit_open, scope_visit_close.
    unfold index_or_default. rewrite lookup_insert_eq. simpl.
    by rewrite !insert_insert_eq. }
  split; [done|].
  destruct (scope_loop_frame dp "" pre ∅ [] [] 0 Hpre)
    as (m0 & ext & Hrun & ->%nil_length_inv & _). simpl in Hrun.
  unfold make_scope_map. cbn [symbols].
  rewrite scope_loop_app, Hrun. cbn [mbind option_bind].
  change [declaration_active d; open_marker o1; open_marker o2;
          close_marker c2; close_marker c1]
    with ([declaration_active d; open_marker o1; open_marker o2; close_marker c2]
          ++ [close_marker c1]).
  rewrite <- app_assoc, scope_loop_app, Hblock. done.
Qed.

(** X8. A scope nested in a scope of the same name: the inner opening brace
    restarts the entry and the outer closing brace ends it, so the entry
    is the range of neither scope. *)
Theorem make_scope_map_same_name_nested d1 d2 x o1 o2 c2 c1 m st :
  pushed_name (declaration_active d1) = Some x →
  pushed_name (declaration_active d2) = Some x →
  scope_loop dp (m, st)
    [declaration_active d1; open_marker o1;
     declaration_active d2; open_marker o2; close_marker c2; close_marker c1]
  = Some (<[x := mk_range (open_brace o2) (close_brace c1)]> m, st).
Proof.
  intros Hd1 Hd2. cbn [scope_loop].
  destruct (scope_visit_push dp m st _ x Hd1) as [_ ->].
  rewrite scope_visit_open.
  match goal with
  | |- context [scope_visit dp (?m1, ?st1) (declaration_active d2)] =>
      destruct (scope_visit_push dp m1 st1 _ x Hd2) as [_ ->]
  end.
  rewrite scope_visit_open, !scope_visit_close.
  unfold index_or_default. rewrite !lookup_insert_eq. simpl.
  by rewrite !insert_insert_eq.
Qed.

(** X9. Once the scopes of a stream are all closed, what comes after
    changes the entry of a name only by pushing that name again. *)
Theorem make_scope_map_later_events evs1 evs2 x m decls errs :
  balanced evs1 →
  x ∉ pushed_names evs2 →
  make_scope_map dp (mk_sema (evs1 ++ evs2) decls errs) = Some m →
  ∃ m1,
    make_scope_map dp (mk_sema evs1 decls errs) = Some m1
    ∧ m !! x = m1 !! x.
Proof.
  intros Hbal Hx. unfold make_scope_map. cbn [symbols].
  destruct (scope_loop_frame dp x evs1 ∅ [] [] 0 Hbal)
    as (m1 & ext & Hrun1 & ->%nil_length_inv & _). simpl in Hrun1.
  rewrite scope_loop_app, Hrun1. cbn [mbind option_bind]. simpl.
  intros Hm. exists m1. split; [done|].
  destruct (scope_loop dp (m1, []) evs2) as [[m2 st2]|] eqn:Hrun2; [|done].
  injection Hm as <-.
  pose proof (scope_loop_depth dp evs2 m1 []) as Hdepth.
  rewrite Hrun2 in Hdepth. simpl in Hdepth.
  destruct (scope_loop_frame dp x evs2 m1 [] [] _ (eq_sym Hdepth))
    as (m' & ext' & Hrun' & _ & Hkeep).
  simpl in Hrun'. rewrite Hrun2 in Hrun'. injection Hrun' as -> _.
  apply Hkeep; [done|apply not_elem_of_nil].
Qed.

(** X10. The stack holds as many names as were pushed and not yet closed: its
    size is the number of pushes less the number of closing markers, and
    it is empty at the end exactly for the balanced streams. *)
Theorem scope_loop_stack_size evs m st :
  scope_loop dp (∅, []) evs = Some (m, st) →
  (length st + count_if is_closing_marker evs = count_if is_push evs)%nat
  ∧ (st = [] ↔ balanced evs).
Proof.
  intros Hrun.
  pose proof (scope_loop_depth dp evs ∅ []) as Hdepth.
  rewrite Hrun in Hdepth. simpl in Hdepth. symmetry in Hdepth.
  split.
  - apply scope_depth_counts in Hdepth. simpl in Hdepth. lia.
  - unfold balanced. rewrite Hdepth. split.
    + by intros ->.
    + intros [= Hl]. by apply nil_length_inv.
Qed.

End ScopeMapMore.

Lemma make_scope_map_provenance_witness :
  "f" ∈ pushed_names nested_stream
  ∧ (mk_pos 2 5 = mk_pos 1 1
     ∨ ∃ n, open_marker n ∈ nested_stream ∧ mk_pos 2 5 = open_brace n)
  ∧ ∃ s, s ∈ nested_stream ∧ marker_position s = Some (mk_pos 3 1).
Proof.
  apply (make_scope_map_provenance (mk_pos 1 1) (mk_sema nested_stream [] [])
           {[ "N" := mk_range (mk_pos 1 10) (mk_pos 4 1);
              "f" := mk_range (mk_pos 2 5) (mk_pos 3 1) ]}
           "f" (mk_range (mk_pos 2 5) (mk_pos 3 1)));
    vm_compute; reflexivity.
Defined.

Lemma make_scope_map_later_events_witness :
  ∃ m1,
    make_scope_map (mk_pos 1 1) (mk_sema nested_stream [] []) = Some m1
    ∧ ({[ "N" := mk_range (mk_pos 1 10) (mk_pos 4 1);
          "f" := mk_range (mk_pos 2 5) (mk_pos 3 1);
          "x" := mk_range (mk_pos 1 1) (mk_pos 4 1) ]}
         : diagnostic_scope_map) !! "f" = m1 !! "f".
Proof.
  apply (make_scope_map_later_events (mk_pos 1 1) nested_stream
           [declaration_active (function_decl "x" (mk_pos 5 1));
            close_marker (braces 3 8 4 1)]
           "f" _ [] []).
  - reflexivity.
  - vm_compute. intros H. by repeat (apply elem_of_cons in H as [?|H]; [done|]);
      apply not_elem_of_nil in H.
  - vm_compute. reflexivity.
Defined.

Lemma scope_loop_stack_size_witness :
  (length ["a"] + count_if is_closing_marker (take 4 double_push_stream)
   = count_if is_push (take 4 double_push_stream))%nat
  ∧ (["a"] = [] ↔ balanced (take 4 double_push_stream)).
Proof.
  apply (scope_loop_stack_size (mk_pos 1 1) (take 4 double_push_stream)
           {[ "b" := mk_range (mk_pos 2 5) (mk_pos 3 1) ]}).
  vm_compute. reflexivity.
Defined.

Lemma make_scope_map_inner_block_witness :
  make_scope_map (mk_pos 1 1)
    (mk_sema ([] ++ [declaration_active (function_decl "f" (mk_pos 1 1));
                     open_marker (braces 1 8 5 1); open_marker (braces 2 3 4 3);
                     close_marker (braces 2 3 4 3); close_marker (braces 1 8 5 1)]
              ++ []) [] [])
  = None.
Proof.
  apply (make_scope_map_inner_block (mk_pos 1 1)
           (function_decl "f" (mk_pos 1 1)) "f"); reflexivity.
Defined.

Lemma make_scope_map_same_name_nested_witness :
  scope_loop (mk_pos 1 1) (∅, [])
    [declaration_active (namespace_decl "x" (mk_pos 1 1)); open_marker (braces 1 8 5 1);
     declaration_active (function_decl "x" (mk_pos 2 1)); open_marker (braces 2 8 4 1);
     close_marker (braces 2 8 4 1); close_marker (braces 1 8 5 1)]
  = Some (<["x" := mk_range (mk_pos 2 8) (mk_pos 5 1)]> ∅, []).
Proof.
  apply (make_scope_map_same_name_nested (mk_pos 1 1)); reflexivity.
Defined.

(** ** More on the symbol set and on [get_diagnostics] *)

Section SortedLists.

Context {A : Type} `{SpaceshipLaws A}.

Implicit Types (x y : A) (l k : list A).

(** A set has one increasing list of its elements. *)
Lemma sorted_unique l :
  ∀ k, StronglySorted cmp_lt l → StronglySorted cmp_lt k →
       (∀ x, x ∈ l ↔ x ∈ k) → l = k.
Proof.
  induction l as [|a l IH]; intros [|b k] Hl Hk Hsame.
  - done.
  - exfalso. apply (not_elem_of_nil b), Hsame. set_solver.
  - exfalso. apply (not_elem_of_nil a), Hsame. set_solver.
  - apply StronglySorted_inv in Hl as [Hl Ha], Hk as [Hk Hb].
    rewrite Forall_forall in Ha, Hb.
    assert (a = b) as <-.
    { assert (a ∈ b :: k) as [->|Hak]%elem_of_cons by (apply Hsame; set_solver);
        [done|].
      assert (b ∈ a :: l) as [->|Hbl]%elem_of_cons by (apply Hsame; set_solver);
        [done|].
      exfalso. apply (cmp_lt_irrefl a), (cmp_lt_trans a b a); auto. }
    f_equal. apply IH; [done..|]. intros x. split; intros Hx.
    + assert (x ∈ a :: k) as [->|?]%elem_of_cons by (apply Hsame; set_solver);
        [|done].
      exfalso. by apply (cmp_lt_irrefl a), Ha.
    + assert (x ∈ a :: l) as [->|?]%elem_of_cons by (apply Hsame; set_solver);
        [|done].
      exfalso. by apply (cmp_lt_irrefl a), Hb.
Qed.

End SortedLists.

Section CollectorMore.

Context (dp : source_position).

Lemma remove_dups_length_le {A} `{EqDecision A} (l : list A) :
  (length (remove_dups l) ≤ length l)%nat.
Proof.
  induction l as [|x l IH]; simpl; [done|].
  destruct (decide_rel elem_of x l); simpl; lia.
Qed.

Lemma omap_length_le {A B} (f : A → option B) (l : list A) :
  (length (omap f l) ≤ length l)%nat.
Proof.
  induction l as [|x l IH]; csimpl; [done|]. destruct (f x); csimpl; lia.
Qed.

Lemma elem_of_read_symbols l x :
  x ∈ read_symbols l ↔ ∃ e, e ∈ l ∧ read_symbol (sym e) = Some x.
Proof. unfold read_symbols. by rewrite list_elem_of_omap. Qed.

Lemma collect_symbols_perm l1 l2 :
  l1 ≡ₚ l2 → collect_symbols [] l1 = collect_symbols [] l2.
Proof.
  intros Hperm.
  destruct (collect_symbols [] l1) as [r1|] eqn:H1,
           (collect_symbols [] l2) as [r2|] eqn:H2.
  - f_equal.
    apply collect_symbols_spec in H1 as [Hs1 Hin1]; [|constructor].
    apply collect_symbols_spec in H2 as [Hs2 Hin2]; [|constructor].
    apply sorted_unique; [done..|]. intros x. rewrite Hin1, Hin2.
    setoid_rewrite Hperm. done.
  - assert (is_Some (collect_symbols [] l2)) as [? ?]; [|congruence].
    apply collect_symbols_defined. rewrite <- Hperm.
    apply (collect_symbols_defined l1 []). eauto.
  - assert (is_Some (collect_symbols [] l1)) as [? ?]; [|congruence].
    apply collect_symbols_defined. rewrite Hperm.
    apply (collect_symbols_defined l2 []). eauto.
  - done.
Qed.

(** X11. The report does not depend on the order in which the declaration
    table is visited: two tables with the same entries give the same
    report, or both give none. *)
Theorem get_diagnostics_table_order evs table1 table2 errs :
  table1 ≡ₚ table2 →
  get_diagnostics dp (mk_sema evs table1 errs)
  = get_diagnostics dp (mk_sema evs table2 errs).
Proof.
  intros Hperm. unfold get_diagnostics. simpl.
  by rewrite (collect_symbols_perm table1 table2 Hperm).
Qed.

(** X12. The report has as many symbols as the table has different
    (name, kind, scope, position) tuples, so at most as many as the table
    has entries. *)
Theorem get_diagnostics_symbol_count sm d :
  get_diagnostics dp sm = Some d →
  length (diag_symbols d)
  = length (remove_dups (read_symbols (declaration_of sm)))
  ∧ (length (diag_symbols d) ≤ length (declaration_of sm))%nat.
Proof.
  unfold get_diagnostics. intros Hd.
  destruct (make_scope_map dp sm) as [scopes|]; [|done].
  destruct (collect_symbols [] (declaration_of sm)) as [syms|] eqn:Hc; [|done].
  injection Hd as <-. simpl.
  apply collect_symbols_spec in Hc as [Hs Hin]; [|constructor].
  assert (syms ≡ₚ remove_dups (read_symbols (declaration_of sm))) as Hperm.
  { apply NoDup_Permutation; [by apply sorted_NoDup|apply NoDup_remove_dups|].
    intros x. rewrite Hin, elem_of_remove_dups, elem_of_read_symbols. set_solver. }
  rewrite Hperm. split; [done|].
  etrans; [apply remove_dups_length_le|]. apply omap_length_le.
Qed.

Lemma collect_symbols_None l :
  ∀ acc,
    collect_symbols acc l = None ↔
    ∃ e, e ∈ l ∧ identifier (sym e) = None.
Proof.
  induction l as [|d l IH]; intros acc; simpl.
  - split; [done|]. intros (e & He & _). by apply not_elem_of_nil in He.
  - unfold read_symbol. destruct (identifier (sym d)) as [tok|] eqn:E.
    + rewrite IH. split.
      * intros (e & He & Hn). exists e. set_solver.
      * intros (e & [->|He]%elem_of_cons & Hn); [congruence|eauto].
    + split; [intros _|done]. exists d. set_solver.
Qed.

(** X13. [get_diagnostics] gives no report exactly when the scope-map builder
    is undefined on the event stream or an entry of the table has a null
    identifier. *)
Theorem get_diagnostics_undefined sm :
  get_diagnostics dp sm = None ↔
    make_scope_map dp sm = None
    ∨ ∃ e, e ∈ declaration_of sm ∧ identifier (sym e) = None.
Proof.
  pose proof (collect_symbols_None (declaration_of sm) []) as Hc.
  unfold get_diagnostics.
  destruct (make_scope_map dp sm); [|naive_solver].
  destruct (collect_symbols [] (declaration_of sm)); naive_solver.
Qed.

End CollectorMore.

Lemma get_diagnostics_table_order_witness :
  get_diagnostics (mk_pos 1 1)
    (mk_sema nested_stream (declaration_of sample_sema) [])
  = get_diagnostics (mk_pos 1 1)
      (mk_sema nested_stream (reverse (declaration_of sample_sema)) []).
Proof.
  apply get_diagnostics_table_order. symmetry. apply reverse_Permutation.
Defined.

Lemma get_diagnostics_symbol_count_witness :
  ∃ d,
    get_diagnostics (mk_pos 1 1) sample_sema = Some d
    ∧ length (diag_symbols d) = 3%nat
    ∧ (length (diag_symbols d) ≤ 4)%nat.
Proof.
  destruct (get_diagnostics (mk_pos 1 1) sample_sema) as [d|] eqn:Hd;
    [|by vm_compute in Hd].
  exists d. split; [done|].
  destruct (get_diagnostics_symbol_count (mk_pos 1 1) sample_sema d Hd)
    as [Hn Hle].
  split; [|exact Hle]. rewrite Hn. vm_compute. reflexivity.
Defined.

(** ** More on the serializer *)

Section SeparatorFacts.

Implicit Types (o : ostream) (r : diagnostics_t).

(** Both sides are the same characters once the appends are nested to
    the right. *)
Ltac same_chain :=
  unfold document, symbol_record, error_record, scope_record,
    position_members, member, quoted;
  rewrite ?append_assoc; reflexivity.

Lemma concat_map_last {A} (rec : A → string) (tail : string) (l : list A) :
  (∀ x, ∃ b, rec x = b +:+ tail) →
  l ≠ [] → ∃ b, concat_map rec l = b +:+ tail.
Proof.
  intros Hrec. induction l as [|x [|y l] IH]; intros Hne; [done| |].
  - destruct (Hrec x) as [b Hb]. exists b. simpl. by rewrite append_nil_r.
  - destruct IH as [b Hb]; [done|]. exists (rec x +:+ b).
    change (concat_map rec (x :: y :: l))
      with (rec x +:+ concat_map rec (y :: l)).
    by rewrite Hb, append_assoc.
Qed.

Lemma contains_prefix (needle text : string) :
  String.prefix needle text = true → contains needle text = true.
Proof. intros Hp. by rewrite contains_unfold, Hp. Qed.

Lemma symbol_record_tail d : ∃ b, symbol_record d = b +:+ "},".
Proof.
  exists ("{ " +:+ member "symbol" (quoted (ds_symbol d)) +:+ ", "
          +:+ member "scope" (quoted (ds_scope d)) +:+ ", "
          +:+ member "kind" (quoted (ds_kind d)) +:+ ", "
          +:+ position_members (ds_position d)).
  same_chain.
Qed.

Lemma error_record_tail e : ∃ b, error_record e = b +:+ "},".
Proof.
  exists ("{" +:+ member "symbol" (quoted (err_symbol e)) +:+ ", "
          +:+ position_members (err_where e) +:+ ", "
          +:+ member "msg" (quoted (escaped (err_msg e)))).
  same_chain.
Qed.

Lemma scope_record_tail sc : ∃ b, scope_record sc = b +:+ "}},".
Proof.
  exists (quoted sc.1 +:+ ":{"
          +:+ member "start" ("{ " +:+ position_members (range_start sc.2) +:+ "}")
          +:+ ","
          +:+ member "end" ("{ " +:+ position_members (range_end sc.2))).
  same_chain.
Qed.

(** X14. Every record is followed by a comma, the last of its section
    too. When the report has a symbol, the symbols section ends in a comma
    right before its closing bracket, and the rest of the document follows
    as it is; likewise for the errors section; when the report has a scope,
    the document ends in the comma of the last scope and the two closing
    braces. A report with nothing in it gives three empty sections. *)
Theorem print_diagnostics_separators o r :
  (diag_symbols r ≠ [] →
   ∃ b,
     print_diagnostics o r
     = o +:+ "{" +:+ quoted "symbols" +:+ ": [" +:+ b
         +:+ "},], " +:+ quoted "errors" +:+ ": ["
         +:+ concat_map error_record (diag_errors r)
         +:+ "], " +:+ quoted "scopes" +:+ ": {"
         +:+ concat_map scope_record (map_to_list (scope_map r)) +:+ "}}")
  ∧ (diag_errors r ≠ [] →
     ∃ b,
       print_diagnostics o r
       = o +:+ "{" +:+ quoted "symbols" +:+ ": ["
           +:+ concat_map symbol_record (diag_symbols r)
           +:+ "], " +:+ quoted "errors" +:+ ": [" +:+ b
           +:+ "},], " +:+ quoted "scopes" +:+ ": {"
           +:+ concat_map scope_record (map_to_list (scope_map r)) +:+ "}}")
  ∧ (scope_map r ≠ ∅ →
     ∃ b,
       print_diagnostics o r
       = o +:+ "{" +:+ quoted "symbols" +:+ ": ["
           +:+ concat_map symbol_record (diag_symbols r)
           +:+ "], " +:+ quoted "errors" +:+ ": ["
           +:+ concat_map error_record (diag_errors r)
           +:+ "], " +:+ quoted "scopes" +:+ ": {" +:+ b +:+ "}},}}")
  ∧ print_diagnostics o (mk_diagnostics [] [] ∅)
    = o +:+ "{" +:+ quoted "symbols" +:+ ": [], " +:+ quoted "errors"
        +:+ ": [], " +:+ quoted "scopes" +:+ ": {}}".
Proof.
  rewrite !print_diagnostics_document. split_and!.
  - intros Hne.
    destruct (concat_map_last symbol_record "}," _ symbol_record_tail Hne)
      as [b Hb].
    exists b. unfold document, member. rewrite Hb, ?append_assoc. reflexivity.
  - intros Hne.
    destruct (concat_map_last error_record "}," _ error_record_tail Hne)
      as [b Hb].
    exists b. unfold document, member. rewrite Hb, ?append_assoc. reflexivity.
  - intros Hne.
    destruct (concat_map_last scope_record "}}," (map_to_list (scope_map r))
                scope_record_tail) as [b Hb].
    { intros Hnil. by apply map_to_list_empty_iff in Hnil. }
    exists b. unfold document, member. rewrite Hb, ?append_assoc. reflexivity.
  - unfold document. simpl. rewrite map_to_list_empty. same_chain.
Qed.

End SeparatorFacts.

(** ** The revision with the scope loop inside [get_diagnostics] *)

Section InlineFacts.

Context (dp : source_position) (pos : declaration_sym → source_position).

Implicit Types (m : diagnostic_scope_map) (st : list string).
Implicit Types (evs : list Inline.symbol) (s : Inline.symbol).

#[local] Arguments Inline.scope_visit : simpl never.

(** The three kinds of event, as this loop treats them. *)
Lemma inline_visit_push m st s name sym :
  Inline.pushing s = Some (name, sym) →
  Inline.closing s = None
  ∧ Inline.scope_visit dp pos (m, st) s
    = Some (<[name := mk_range (pos sym) (pos sym)]> m, name :: st).
Proof.
  destruct s as [d|c|]; simpl; try done.
  unfold Inline.scope_visit.
  destruct (is_function _ || is_namespace _); [|done].
  destruct (identifier d); simpl; [|done]. by intros [= -> ->].
Qed.

Lemma inline_visit_close m st s node :
  Inline.closing s = Some node →
  Inline.pushing s = None
  ∧ Inline.scope_visit dp pos (m, st) s
    = match st with
      | [] => None
      | name :: rest =>
          Some (<[name := mk_range (range_start (index_or_default dp m name))
                                   (close_brace node)]> m, rest)
      end.
Proof.
  destruct s as [d|[b n k]|]; simpl; try done.
  unfold Inline.scope_visit. simpl.
  destruct b, k; try done. by intros ->.
Qed.

Lemma inline_visit_ignored m st s :
  Inline.pushing s = None → Inline.closing s = None →
  Inline.scope_visit dp pos (m, st) s = Some (m, st).
Proof.
  destruct s as [d|[b n k]|]; unfold Inline.scope_visit; simpl; try done.
  - destruct (is_function _ || is_namespace _); [|done].
    by destruct (identifier d).
  - destruct b, k; try done. by intros _ ->.
Qed.

Lemma inline_cases s :
  (∃ name sym, Inline.pushing s = Some (name, sym))
  ∨ (∃ node, Inline.closing s = Some node)
  ∨ (Inline.pushing s = None ∧ Inline.closing s = None).
Proof.
  destruct (Inline.pushing s) as [[name sym]|] eqn:Hp; [left; eauto|].
  destruct (Inline.closing s) as [node|] eqn:Hc; [right; left; eauto|].
  by repeat right.
Qed.

Lemma inline_pushed_names_cons s evs :
  Inline.pushed_names (s :: evs)
  = match Inline.pushing s with
    | Some (name, _) => name :: Inline.pushed_names evs
    | None => Inline.pushed_names evs
    end.
Proof.
  unfold Inline.pushed_names. csimpl. by destruct (Inline.pushing s) as [[??]|].
Qed.

Lemma inline_entry_tail m s evs name r :
  (∃ s0 sym,
     s0 ∈ evs ∧ Inline.pushing s0 = Some (name, sym)
     ∧ range_start r = pos sym
     ∧ (range_end r = pos sym
        ∨ ∃ s' node, s' ∈ evs ∧ Inline.closing s' = Some node
                     ∧ range_end r = close_brace node)) →
  Inline.entry_from pos m (s :: evs) name r.
Proof.
  intros (s0 & sym & ? & ? & ? & He). right. right.
  exists s0, sym. split_and!; [set_solver|done..|].
  destruct He as [?|(s' & node & ? & ? & ?)]; [by left|right].
  exists s', node. set_solver.
Qed.

(** The loop keeps an entry for every name on its stack, enters one for
    every name it pushes, and changes a range only by restarting it at the
    position of a pushed declaration or by ending it at a closing
    brace. *)
Lemma inline_loop_entries evs :
  ∀ m st m' st',
    (∀ x, x ∈ st → is_Some (m !! x)) →
    Inline.scope_loop dp pos (m, st) evs = Some (m', st') →
    (∀ x, x ∈ st' → is_Some (m' !! x))
    ∧ dom m' =@{gset string} dom m ∪ list_to_set (Inline.pushed_names evs)
    ∧ ∀ name r, m' !! name = Some r → Inline.entry_from pos m evs name r.
Proof.
  induction evs as [|s evs IH]; intros m st m' st' Hst Hrun.
  { injection Hrun as <- <-. split_and!; [done|set_solver|].
    intros name r Hr. by left. }
  simpl in Hrun.
  destruct (Inline.scope_visit dp pos (m, st) s) as [[m1 st1]|] eqn:Hstep;
    [|done].
  rewrite inline_pushed_names_cons.
  destruct (inline_cases s) as [(n0 & sym & Hp)|[(node & Hc)|[Hp Hc]]].
  - destruct (inline_visit_push m st s n0 sym Hp) as [_ Hs].
    rewrite Hs in Hstep. injection Hstep as <- <-. rewrite Hp.
    assert (∀ x, x ∈ n0 :: st →
                 is_Some (<[n0 := mk_range (pos sym) (pos sym)]> m !! x)) as Hst1.
    { intros x Hx. destruct (decide (x = n0)) as [->|Hne].
      - rewrite lookup_insert_eq. eauto.
      - rewrite lookup_insert_ne by done. apply Hst. set_solver. }
    destruct (IH _ _ _ _ Hst1 Hrun) as (Hst' & Hdom & Hent).
    split_and!; [done|rewrite Hdom, dom_insert_L; set_solver|].
    intros name r Hr.
    destruct (Hent name r Hr)
      as [Hm1|[(r0 & s' & node & Hr0 & Hs0 & ? & ? & ?)|Htail]];
      [| |by apply inline_entry_tail].
    + destruct (decide (name = n0)) as [->|Hne].
      * rewrite lookup_insert_eq in Hm1. injection Hm1 as <-.
        right. right. exists s, sym. split_and!; [set_solver|done..|by left].
      * rewrite lookup_insert_ne in Hm1 by done. by left.
    + destruct (decide (name = n0)) as [->|Hne].
      * rewrite lookup_insert_eq in Hr0. injection Hr0 as <-. simpl in Hs0.
        right. right. exists s, sym. split_and!; [set_solver|done..|].
        right. exists s', node. set_solver.
      * rewrite lookup_insert_ne in Hr0 by done.
        right. left. exists r0, s', node. set_solver.
  - destruct (inline_visit_close m st s node Hc) as [Hp Hs].
    rewrite Hs in Hstep. rewrite Hp.
    destruct st as [|top rest]; [done|]. injection Hstep as <- <-.
    destruct (Hst top) as [rt Hrt]; [set_solver|].
    unfold index_or_default in Hrun. rewrite Hrt in Hrun. simpl in Hrun.
    assert (∀ x, x ∈ rest →
                 is_Some (<[top := mk_range (range_start rt) (close_brace node)]> m !! x))
      as Hst1.
    { intros x Hx. destruct (decide (x = top)) as [->|Hne].
      - rewrite lookup_insert_eq. eauto.
      - rewrite lookup_insert_ne by done. apply Hst. set_solver. }
    destruct (IH _ _ _ _ Hst1 Hrun) as (Hst' & Hdom & Hent).
    split_and!; [done| |].
    { rewrite Hdom, dom_insert_L. apply elem_of_dom_2 in Hrt. set_solver. }
    intros name r Hr.
    destruct (Hent name r Hr)
      as [Hm1|[(r0 & s' & node' & Hr0 & Hs0 & ? & ? & ?)|Htail]];
      [| |by apply inline_entry_tail].
    + destruct (decide (name = top)) as [->|Hne].
      * rewrite lookup_insert_eq in Hm1. injection Hm1 as <-.
        right. left. exists rt, s, node. split_and!; [done..|set_solver|done|done].
      * rewrite lookup_insert_ne in Hm1 by done. by left.
    + right. left. destruct (decide (name = top)) as [->|Hne].
      * rewrite lookup_insert_eq in Hr0. injection Hr0 as <-. simpl in Hs0.
        exists rt, s', node'. set_solver.
      * rewrite lookup_insert_ne in Hr0 by done.
        exists r0, s', node'. set_solver.
  - rewrite (inline_visit_ignored m st s Hp Hc) in Hstep.
    injection Hstep as <- <-. rewrite Hp.
    destruct (IH _ _ _ _ Hst Hrun) as (Hst' & Hdom & Hent).
    split_and!; [done..|].
    intros name r Hr.
    destruct (Hent name r Hr)
      as [Hm1|[(r0 & s' & node' & Hr0 & Hs0 & ? & ? & ?)|Htail]];
      [by left| |by apply inline_entry_tail].
    right. left. exists r0, s', node'. set_solver.
Qed.

(** X15. In this revision every pushed name has an entry, whether or not a
    brace follows, and no entry holds a default-constructed position: a
    range starts at the position of a declaration that pushed its name and
    ends there, or at a closing brace of the stream. *)
Theorem inline_scope_entries sm d :
  Inline.get_diagnostics dp pos sm = Some d →
  dom (scope_map d) = list_to_set (Inline.pushed_names (Inline.symbols sm))
  ∧ ∀ name r,
      scope_map d !! name = Some r →
      ∃ s sym,
        s ∈ Inline.symbols sm ∧ Inline.pushing s = Some (name, sym)
        ∧ range_start r = pos sym
        ∧ (range_end r = pos sym
           ∨ ∃ s' node, s' ∈ Inline.symbols sm
                        ∧ Inline.closing s' = Some node
                        ∧ range_end r = close_brace node).
Proof.
  unfold Inline.get_diagnostics. intros Hd.
  destruct (collect_symbols [] (Inline.declaration_of sm)); [|done].
  destruct (Inline.scope_loop dp pos (∅, []) (Inline.symbols sm))
    as [[m st]|] eqn:Hrun; [|done].
  injection Hd as <-. simpl.
  destruct (inline_loop_entries _ _ _ _ _ (λ x Hx, False_ind _ (not_elem_of_nil x Hx)) Hrun)
    as (_ & Hdom & Hent).
  split; [rewrite Hdom; set_solver|].
  intros name r Hr.
  destruct (Hent name r Hr) as [Hm|[(r0 & ? & ? & Hm & _)|?]]; [| |done];
    by rewrite lookup_empty in Hm.
Qed.

Lemma inline_loop_filter evs :
  ∀ σ,
    Inline.scope_loop dp pos σ (List.filter Inline.acts_on evs)
    = Inline.scope_loop dp pos σ evs.
Proof.
  induction evs as [|s evs IH]; intros [m st]; [done|]. simpl.
  destruct (Inline.acts_on s) eqn:Ha; simpl.
  - destruct (Inline.scope_visit dp pos (m, st) s); [apply IH|done].
  - unfold Inline.acts_on in Ha. apply orb_false_iff in Ha as [Hp Hc].
    apply bool_decide_eq_false in Hp, Hc.
    apply eq_None_not_Some in Hp. apply eq_None_not_Some in Hc.
    by rewrite (inline_visit_ignored m st s Hp Hc).
Qed.

Lemma inline_loop_underflow evs :
  ∀ m st,
    Inline.scope_loop dp pos (m, st) evs = None ↔
    ∃ pre s post m' node,
      evs = pre ++ s :: post ∧ Inline.closing s = Some node
      ∧ Inline.scope_loop dp pos (m, st) pre = Some (m', []).
Proof.
  induction evs as [|s0 evs IH]; intros m st; simpl.
  { split; [done|]. by intros ([|??] & ? & ? & ? & ? & ? & _). }
  destruct (Inline.scope_visit dp pos (m, st) s0) as [[m1 st1]|] eqn:Hstep.
  - rewrite IH. split.
    + intros (pre & s & post & m' & node & -> & Hc & Hrun).
      exists (s0 :: pre), s, post, m', node. split_and!; [done..|].
      simpl. by rewrite Hstep.
    + intros ([|s1 pre] & s & post & m' & node & Heq & Hc & Hrun);
        simplify_eq/=.
      * destruct (inline_visit_close m' [] s node Hc) as [_ ?]. congruence.
      * rewrite Hstep in Hrun. by exists pre, s, post, m', node.
  - split; [intros _|done].
    destruct (inline_cases s0) as [(n0 & sym & Hp)|[(node & Hc)|[Hp Hc]]].
    + destruct (inline_visit_push m st s0 n0 sym Hp) as [_ ?]. congruence.
    + destruct (inline_visit_close m st s0 node Hc) as [_ Hs].
      rewrite Hs in Hstep. destruct st; [|done].
      by exists [], s0, evs, m, node.
    + rewrite (inline_visit_ignored m st s0 Hp Hc) in Hstep. done.
Qed.

(** X16. This revision looks at closing braces only: everything but the
    declarations that push a name and the closing markers that have their
    node (opening markers among the rest) can be taken out of the stream
    without changing the report, and the behaviour is undefined exactly
    when an entry of the table has a null identifier or such a closing
    marker meets an empty stack. *)
Theorem inline_closing_only sm :
  Inline.get_diagnostics dp pos
    (Inline.mk_sema (List.filter Inline.acts_on (Inline.symbols sm))
                    (Inline.declaration_of sm) (Inline.errors sm))
  = Inline.get_diagnostics dp pos sm
  ∧ (Inline.get_diagnostics dp pos sm = None ↔
     (∃ e, e ∈ Inline.declaration_of sm ∧ identifier (sym e) = None)
     ∨ ∃ pre s post m node,
         Inline.symbols sm = pre ++ s :: post
         ∧ Inline.closing s = Some node
         ∧ Inline.scope_loop dp pos (∅, []) pre = Some (m, [])).
Proof.
  split.
  - unfold Inline.get_diagnostics. simpl. by rewrite inline_loop_filter.
  - rewrite <- inline_loop_underflow,
      <- (collect_symbols_None (Inline.declaration_of sm) []).
    unfold Inline.get_diagnostics.
    destruct (collect_symbols [] (Inline.declaration_of sm)); [|naive_solver].
    destruct (Inline.scope_loop dp pos (∅, []) (Inline.symbols sm))
      as [[??]|]; naive_solver.
Qed.

End InlineFacts.

Lemma inline_scope_entries_witness :
  ∃ d,
    Inline.get_diagnostics (mk_pos 1 1) (λ sym, position (declaration sym))
      Inline.sample_sema = Some d
    ∧ dom (scope_map d) = {[ "g"; "f" ]}.
Proof.
  destruct (Inline.get_diagnostics (mk_pos 1 1)
              (λ sym, position (declaration sym)) Inline.sample_sema)
    as [d|] eqn:Hd; [|by vm_compute in Hd].
  exists d. split; [done|].
  destruct (inline_scope_entries _ _ _ d Hd) as [-> _].
  vm_compute. reflexivity.
Defined.

(** ** The two earliest revisions *)

#[global] Instance early_symbol_key_inj : Inj (=) (=) Early.symbol_key.
Proof. intros [n1 l1 c1] [n2 l2 c2] [= -> -> ->]. done. Qed.

#[global] Instance early_symbol_laws : SpaceshipLaws Early.diagnostic_symbol_t.
Proof. apply (spaceship_laws_by_key Early.symbol_key). Qed.

Section EarlyFacts.

Implicit Types (l : list declaration_of_entry) (e : declaration_of_entry).
Implicit Types (x : Early.diagnostic_symbol_t).

Lemma early_collect_spec l :
  ∀ acc r,
    Early.collect_symbols acc l = Some r →
    StronglySorted cmp_lt acc →
    StronglySorted cmp_lt r
    ∧ ∀ x, x ∈ r ↔ x ∈ acc ∨ ∃ e, e ∈ l ∧ Early.read_entry e = Some x.
Proof.
  induction l as [|d l IH]; intros acc r; simpl.
  - intros [= <-] Hs. split; [done|]. intros x. set_solver.
  - destruct (Early.read_entry d) as [y|] eqn:Hy; [|done].
    intros Hr Hs. apply IH in Hr as [Hsr Hin]; [|by apply set_emplace_sorted].
    split; [done|]. intros x. rewrite Hin, elem_of_set_emplace. split.
    + intros [[->|?]|(e & ? & ?)]; [right; exists d|by left|right; exists e];
        set_solver.
    + intros [?|(e & [->|?]%elem_of_cons & He)]; [by left; right| |by eauto].
      left; left. congruence.
Qed.

Lemma early_collect_None l :
  ∀ acc,
    Early.collect_symbols acc l = None ↔
    ∃ e, e ∈ l ∧ identifier (sym e) = None.
Proof.
  induction l as [|d l IH]; intros acc; simpl.
  - split; [done|]. intros (e & He & _). by apply not_elem_of_nil in He.
  - unfold Early.read_entry. destruct (identifier (sym d)) as [tok|] eqn:E.
    + rewrite IH. split.
      * intros (e & He & Hn). exists e. set_solver.
      * intros (e & [->|He]%elem_of_cons & Hn); [congruence|eauto].
    + split; [intros _|done]. exists d. set_solver.
Qed.

Lemma early_read_entry e x :
  Early.read_entry e = Some x ↔
    identifier (sym e) = Some (Early.s_symbol x)
    ∧ position (declaration (sym e))
      = mk_pos (Early.s_lineno x) (Early.s_colno x).
Proof.
  unfold Early.read_entry. destruct x as [n ln cn]. simpl.
  destruct (identifier (sym e)) as [tok|]; [|naive_solver].
  destruct (position (declaration (sym e))) as [ln' cn']. simpl.
  naive_solver.
Qed.

(** A loop of [emplace_back] gives the list of what it emplaces. *)
Lemma foldl_emplace_back {A B} (f : A → B) (l : list A) :
  ∀ acc, foldl (λ acc a, acc ++ [f a]) acc l = acc ++ map f l.
Proof.
  induction l as [|a l IH]; intros acc; simpl.
  - by rewrite app_nil_r.
  - by rewrite IH, <- app_assoc.
Qed.

(** The symbols of the two earliest revisions: increasing in the order
    by name, then line, then column, hence no two alike, and one for each
    (identifier, position) of the table, whatever kind of declaration it
    is. *)
Lemma early_symbols l syms :
  Early.collect_symbols [] l = Some syms →
  StronglySorted cmp_lt syms
  ∧ NoDup syms
  ∧ ∀ x, x ∈ syms ↔
         ∃ e, e ∈ l
              ∧ identifier (sym e) = Some (Early.s_symbol x)
              ∧ position (declaration (sym e))
                = mk_pos (Early.s_lineno x) (Early.s_colno x).
Proof.
  intros Hc. apply early_collect_spec in Hc as [Hs Hin]; [|constructor].
  split_and!; [done|by apply sorted_NoDup|].
  intros x. rewrite Hin. setoid_rewrite early_read_entry. set_solver.
Qed.

(** X17. The first revision gives a report unless an entry of the table has
    a null identifier. Its symbols are increasing and unique by name, line
    and column, one for each (identifier, position) of the table whatever
    the kind of the declaration. Its errors are the analyzer's, in order,
    with message and position, and each with an empty symbol. *)
Theorem plain_get_diagnostics sm :
  (Plain.get_diagnostics sm = None ↔
   ∃ e, e ∈ declaration_of sm ∧ identifier (sym e) = None)
  ∧ ∀ d,
      Plain.get_diagnostics sm = Some d →
      StronglySorted cmp_lt (Plain.d_symbols d)
      ∧ NoDup (Plain.d_symbols d)
      ∧ (∀ x, x ∈ Plain.d_symbols d ↔
              ∃ e, e ∈ declaration_of sm
                   ∧ identifier (sym e) = Some (Early.s_symbol x)
                   ∧ position (declaration (sym e))
                     = mk_pos (Early.s_lineno x) (Early.s_colno x))
      ∧ Plain.d_errors d
        = map (λ err, Plain.mk_error "" (err_msg err) (lineno (err_where err))
                                     (colno (err_where err)))
              (errors sm)
      ∧ Forall (λ err, Plain.e_symbol err = "") (Plain.d_errors d).
Proof.
  unfold Plain.get_diagnostics. split.
  - rewrite <- (early_collect_None (declaration_of sm) []).
    by destruct (Early.collect_symbols [] (declaration_of sm)).
  - intros d Hd.
    destruct (Early.collect_symbols [] (declaration_of sm)) as [syms|] eqn:Hc;
      [|done].
    injection Hd as <-. simpl.
    destruct (early_symbols _ _ Hc) as (Hs & Hnd & Hin).
    unfold Plain.collect_errors. rewrite foldl_emplace_back. simpl.
    split_and!; [done..|]. apply Forall_forall.
    intros ? (err & -> & _)%list_elem_of_fmap. done.
Qed.

(** X18. The second revision gives a report unless an entry of the table has
    a null identifier. Its symbols are as in the first revision. Its errors
    are the analyzer's, in order, with symbol, message and position, and
    each with the source file the caller named. *)
Theorem file_tagged_get_diagnostics sourcefile sm :
  (FileTagged.get_diagnostics sourcefile sm = None ↔
   ∃ e, e ∈ declaration_of sm ∧ identifier (sym e) = None)
  ∧ ∀ d,
      FileTagged.get_diagnostics sourcefile sm = Some d →
      StronglySorted cmp_lt (FileTagged.d_symbols d)
      ∧ NoDup (FileTagged.d_symbols d)
      ∧ (∀ x, x ∈ FileTagged.d_symbols d ↔
              ∃ e, e ∈ declaration_of sm
                   ∧ identifier (sym e) = Some (Early.s_symbol x)
                   ∧ position (declaration (sym e))
                     = mk_pos (Early.s_lineno x) (Early.s_colno x))
      ∧ FileTagged.d_errors d
        = map (λ err, FileTagged.mk_error sourcefile (err_symbol err)
                        (err_msg err) (lineno (err_where err))
                        (colno (err_where err)))
              (errors sm)
      ∧ Forall (λ err, FileTagged.e_file err = sourcefile)
               (FileTagged.d_errors d).
Proof.
  unfold FileTagged.get_diagnostics. split.
  - rewrite <- (early_collect_None (declaration_of sm) []).
    by destruct (Early.collect_symbols [] (declaration_of sm)).
  - intros d Hd.
    destruct (Early.collect_symbols [] (declaration_of sm)) as [syms|] eqn:Hc;
      [|done].
    injection Hd as <-. simpl.
    destruct (early_symbols _ _ Hc) as (Hs & Hnd & Hin).
    unfold FileTagged.collect_errors. rewrite foldl_emplace_back. simpl.
    split_and!; [done..|]. apply Forall_forall.
    intros ? (err & -> & _)%list_elem_of_fmap. done.
Qed.

End EarlyFacts.

Section EarlyPrinting.

Implicit Types (o : ostream) (needle a b : string).

Ltac early_chain :=
  unfold Plain.symbol_record, Plain.error_record, FileTagged.symbol_record,
    FileTagged.error_record, put, put_int, position_members, member, quoted;
  rewrite ?append_assoc; reflexivity.

Lemma prefix_app_l needle :
  ∀ a b, String.prefix needle a = true → String.prefix needle (a +:+ b) = true.
Proof.
  induction needle as [|c needle IH]; intros a b.
  - intros _. by destruct (a +:+ b).
  - destruct a as [|c' a]; [done|]. rewrite append_cons. simpl.
    destruct (ascii_dec c c'); [apply IH|done].
Qed.

Lemma contains_app_l needle a b :
  contains needle a = true → contains needle (a +:+ b) = true.
Proof.
  induction a as [|c a IH]; rewrite contains_unfold.
  - rewrite orb_false_r. intros Hp. apply contains_prefix.
    by apply prefix_app_l.
  - intros [Hp|Ha]%orb_true_iff.
    + apply contains_prefix. by apply prefix_app_l.
    + rewrite append_cons, contains_unfold, IH by done. apply orb_true_r.
Qed.

Lemma contains_mid needle a b : contains needle (a +:+ needle +:+ b) = true.
Proof. apply contains_skip, contains_here. Qed.

Lemma contains_in needle text a b :
  text = a +:+ needle +:+ b → contains needle text = true.
Proof. intros ->. apply contains_mid. Qed.

Lemma contains_concat_map {A} (rec : A → string) needle (l : list A) (x : A) :
  x ∈ l → contains needle (rec x) = true →
  contains needle (concat_map rec l) = true.
Proof.
  intros Hx Hrec. induction l as [|y l IH]; [by apply not_elem_of_nil in Hx|].
  change (concat_map rec (y :: l)) with (rec y +:+ concat_map rec l).
  apply elem_of_cons in Hx as [<-|Hx].
  - by apply contains_app_l.
  - by apply contains_skip, IH.
Qed.

Lemma plain_print_symbol o d :
  Plain.print_symbol o d = o +:+ Plain.symbol_record d.
Proof. unfold Plain.print_symbol. early_chain. Qed.

Lemma plain_print_error o e :
  Plain.print_error o e = o +:+ Plain.error_record e.
Proof. unfold Plain.print_error. early_chain. Qed.

Lemma file_tagged_print_symbol o d :
  FileTagged.print_symbol o d = o +:+ FileTagged.symbol_record d.
Proof. unfold FileTagged.print_symbol. early_chain. Qed.

Lemma file_tagged_print_error o e :
  FileTagged.print_error o e = o +:+ FileTagged.error_record e.
Proof.
  unfold FileTagged.print_error. rewrite sanitize_for_json_escaped.
  early_chain.
Qed.

(** X19. The first revision writes two sections, [symbols] and [errors], a
    line for each record. The message of an error is written between
    double quotes as it is, with no escaping, and the line and the column
    of an error are each followed by a double quote. *)
Theorem plain_print_diagnostics o d :
  Plain.print_diagnostics o d
  = o +:+ "{" +:+ quoted "symbols" +:+ ": [" +:+ Plain.nl
      +:+ concat_map Plain.symbol_record (Plain.d_symbols d)
      +:+ "]" +:+ Plain.nl +:+ ", " +:+ quoted "errors" +:+ ": [" +:+ Plain.nl
      +:+ concat_map Plain.error_record (Plain.d_errors d)
      +:+ "]" +:+ Plain.nl +:+ "}"
  ∧ ∀ e,
      e ∈ Plain.d_errors d →
      contains (member "msg" (quoted (Plain.e_msg e)))
               (Plain.print_diagnostics o d) = true
      ∧ contains (member "lineno" (pretty (Plain.e_lineno e) +:+ dq))
                 (Plain.print_diagnostics o d) = true
      ∧ contains (member "colno" (pretty (Plain.e_colno e) +:+ dq))
                 (Plain.print_diagnostics o d) = true.
Proof.
  assert (Plain.print_diagnostics o d
          = o +:+ "{" +:+ quoted "symbols" +:+ ": [" +:+ Plain.nl
              +:+ concat_map Plain.symbol_record (Plain.d_symbols d)
              +:+ "]" +:+ Plain.nl +:+ ", " +:+ quoted "errors" +:+ ": ["
              +:+ Plain.nl
              +:+ concat_map Plain.error_record (Plain.d_errors d)
              +:+ "]" +:+ Plain.nl +:+ "}") as Hdoc.
  { unfold Plain.print_diagnostics.
    rewrite (foldl_records Plain.print_symbol Plain.symbol_record
               plain_print_symbol).
    rewrite (foldl_records Plain.print_error Plain.error_record
               plain_print_error).
    unfold put. rewrite ?append_assoc. reflexivity. }
  split; [done|]. intros e He. rewrite Hdoc.
  assert (∀ needle,
            contains needle (Plain.error_record e) = true →
            contains needle
              (o +:+ "{" +:+ quoted "symbols" +:+ ": [" +:+ Plain.nl
               +:+ concat_map Plain.symbol_record (Plain.d_symbols d)
               +:+ "]" +:+ Plain.nl +:+ ", " +:+ quoted "errors" +:+ ": ["
               +:+ Plain.nl
               +:+ concat_map Plain.error_record (Plain.d_errors d)
               +:+ "]" +:+ Plain.nl +:+ "}") = true) as Hin.
  { intros needle Hn. do 12 apply contains_skip.
    by apply contains_app_l, (contains_concat_map _ _ _ e). }
  split_and!; apply Hin.
  - apply (contains_in _ _
             ("{ " +:+ quoted "symbol" +:+ ": "
              +:+ quoted (Plain.e_symbol e) +:+ ","
              +:+ quoted "lineno" +:+ ": " +:+ pretty (Plain.e_lineno e)
              +:+ dq +:+ ","
              +:+ quoted "colno" +:+ ": " +:+ pretty (Plain.e_colno e)
              +:+ dq +:+ ",")
             ("}," +:+ Plain.nl)).
    early_chain.
  - apply (contains_in _ _
             ("{ " +:+ quoted "symbol" +:+ ": "
              +:+ quoted (Plain.e_symbol e) +:+ ",")
             ("," +:+ quoted "colno" +:+ ": "
              +:+ pretty (Plain.e_colno e) +:+ dq +:+ ","
              +:+ quoted "msg" +:+ ": " +:+ quoted (Plain.e_msg e)
              +:+ "}," +:+ Plain.nl)).
    early_chain.
  - apply (contains_in _ _
             ("{ " +:+ quoted "symbol" +:+ ": "
              +:+ quoted (Plain.e_symbol e) +:+ ","
              +:+ quoted "lineno" +:+ ": " +:+ pretty (Plain.e_lineno e)
              +:+ dq +:+ ",")
             ("," +:+ quoted "msg" +:+ ": " +:+ quoted (Plain.e_msg e)
              +:+ "}," +:+ Plain.nl)).
    early_chain.
Qed.

(** X20. The second revision writes two sections, [symbols] and [errors].
    Each error record starts with the source file, written as it is, and
    ends with the message, escaped by [sanitize_for_json]. *)
Theorem file_tagged_print_diagnostics o d :
  FileTagged.print_diagnostics o d
  = o +:+ "{"
      +:+ member "symbols"
            ("[" +:+ concat_map FileTagged.symbol_record (FileTagged.d_symbols d)
             +:+ "]")
      +:+ ", "
      +:+ member "errors"
            ("[" +:+ concat_map FileTagged.error_record (FileTagged.d_errors d)
             +:+ "]")
      +:+ "}"
  ∧ ∀ e,
      e ∈ FileTagged.d_errors d →
      contains ("{" +:+ member "file" (quoted (FileTagged.e_file e)))
               (FileTagged.print_diagnostics o d) = true
      ∧ contains (member "msg"
                    (quoted (sanitize_for_json (FileTagged.e_msg e))) +:+ "},")
                 (FileTagged.print_diagnostics o d) = true.
Proof.
  assert (FileTagged.print_diagnostics o d
          = o +:+ "{" +:+ quoted "symbols" +:+ ": " +:+ "["
              +:+ concat_map FileTagged.symbol_record (FileTagged.d_symbols d)
              +:+ "]" +:+ ", " +:+ quoted "errors" +:+ ": " +:+ "["
              +:+ concat_map FileTagged.error_record (FileTagged.d_errors d)
              +:+ "]" +:+ "}") as Hdoc.
  { unfold FileTagged.print_diagnostics.
    rewrite (foldl_records FileTagged.print_symbol FileTagged.symbol_record
               file_tagged_print_symbol).
    rewrite (foldl_records FileTagged.print_error FileTagged.error_record
               file_tagged_print_error).
    unfold put. rewrite ?append_assoc. reflexivity. }
  split.
  { rewrite Hdoc. unfold member. rewrite ?append_assoc. reflexivity. }
  intros e He. rewrite Hdoc.
  assert (∀ needle,
            contains needle (FileTagged.error_record e) = true →
            contains needle
              (o +:+ "{" +:+ quoted "symbols" +:+ ": " +:+ "["
               +:+ concat_map FileTagged.symbol_record (FileTagged.d_symbols d)
               +:+ "]" +:+ ", " +:+ quoted "errors" +:+ ": " +:+ "["
               +:+ concat_map FileTagged.error_record (FileTagged.d_errors d)
               +:+ "]" +:+ "}") = true) as Hin.
  { intros needle Hn. do 11 apply contains_skip.
    by apply contains_app_l, (contains_concat_map _ _ _ e). }
  rewrite sanitize_for_json_escaped. split; apply Hin.
  - apply (contains_in _ _ ""
             (", " +:+ member "symbol" (quoted (FileTagged.e_symbol e)) +:+ ", "
              +:+ member "lineno" (pretty (FileTagged.e_lineno e)) +:+ ", "
              +:+ member "colno" (pretty (FileTagged.e_colno e)) +:+ ", "
              +:+ member "msg" (quoted (escaped (FileTagged.e_msg e)))
              +:+ "},")).
    early_chain.
  - apply (contains_in _ _
             ("{" +:+ member "file" (quoted (FileTagged.e_file e)) +:+ ", "
              +:+ member "symbol" (quoted (FileTagged.e_symbol e)) +:+ ", "
              +:+ member "lineno" (pretty (FileTagged.e_lineno e)) +:+ ", "
              +:+ member "colno" (pretty (FileTagged.e_colno e)) +:+ ", ")
             "").
    rewrite append_nil_r. early_chain.
Qed.

End EarlyPrinting.
